(** * mnem.js: keyboard mnemonics for tagged elements

    A shallow embedding of [src/index.ts].  The module keeps five pieces of
    state ([isAltActive], [config], [accessMap], [observer], [pendingGroup]);
    its functions are embedded as functions on a [State] record that also holds
    the parts of the page the module reads and writes: the host tree, the hint
    spans appended to [document.body], the injected style element and a log of
    the focus changes and events sent to host elements.

    JavaScript arrays are objects: [pendingGroup = elements] stores a reference
    to the array held by [accessMap], and [push] updates an array in place.
    Arrays therefore live in a store ([heap]) and both [accessMap] and
    [pendingGroup] hold locations.

    Boundaries of the model.  Strings are sequences of 8-bit characters.  An
    element is its identity together with its attributes as they are read at
    scan time.  The hint spans are kept apart from the host tree: they carry
    a class and a style attribute only, so a scan for the declared attribute
    does not select them.  Layout (the bounding boxes the hints are placed by)
    and the handlers the host page attaches to its elements are outside the
    model; what the module sends to the page is recorded in [effects]. *)

From Stdlib Require Import String Ascii List Arith Lia Bool DecimalString.
From stdpp Require Import base option list.
Import ListNotations.

Local Open Scope string_scope.
Local Open Scope list_scope.
Local Open Scope nat_scope.

(** ** Strings *)

Module Js.

(** Strings are modelled as sequences of 8-bit characters; case mapping
    acts on the letters A-Z and a-z and leaves every other character. *)
Definition lowerChar (c : ascii) : ascii :=
  let n := nat_of_ascii c in
  if (65 <=? n) && (n <=? 90) then ascii_of_nat (n + 32) else c.

Definition upperChar (c : ascii) : ascii :=
  let n := nat_of_ascii c in
  if (97 <=? n) && (n <=? 122) then ascii_of_nat (n - 32) else c.

Fixpoint toLowerCase (s : string) : string :=
  match s with
  | EmptyString => EmptyString
  | String c r => String (lowerChar c) (toLowerCase r)
  end.

Fixpoint toUpperCase (s : string) : string :=
  match s with
  | EmptyString => EmptyString
  | String c r => String (upperChar c) (toUpperCase r)
  end.

(** [/^[1-9]$/.test(key)] followed by [parseInt(key, 10)]: the digit's
    value when [key] is exactly one character among 1..9. *)
Definition digit19 (key : string) : option nat :=
  match key with
  | String c EmptyString =>
      let n := nat_of_ascii c in
      if (49 <=? n) && (n <=? 57) then Some (n - 48) else None
  | _ => None
  end.

(** The template literal's rendering of a number. *)
Definition numberToString (n : nat) : string :=
  NilEmpty.string_of_uint (Nat.to_uint n).

(** Truthiness of an optional string: [undefined] and the empty string
    are falsy. *)
Definition truthy (o : option string) : bool :=
  match o with
  | Some (String _ _) => true
  | _ => false
  end.

End Js.

(** ** The document *)

Record HTMLElement := mkElement {
  el_id : nat;
  el_attrs : list (string * string)
}.

#[warnings="-register-all"]
Inductive DomNode :=
| Dom (el : HTMLElement) (children : list DomNode).

Fixpoint assocGet {V} (k : string) (m : list (string * V)) : option V :=
  match m with
  | [] => None
  | (k', v) :: r => if String.eqb k' k then Some v else assocGet k r
  end.

Definition getAttribute (name : string) (el : HTMLElement) : option string :=
  assocGet name (el_attrs el).

Definition hasAttribute (name : string) (el : HTMLElement) : bool :=
  match getAttribute name el with Some _ => true | None => false end.

(** Document order: a node before its children, children left to right. *)
Fixpoint descendants (n : DomNode) : list HTMLElement :=
  match n with
  | Dom el children => el :: flat_map descendants children
  end.

(** [document.querySelectorAll(`[${attr}]`)]. *)
Definition querySelectorAll (attr : string) (doc : DomNode) : list HTMLElement :=
  List.filter (hasAttribute attr) (descendants doc).

(** ** Configuration *)

Record MnemonicConfig := mkUserConfig {
  u_attr : option string;
  u_activeClass : option string;
  u_color : option string;
  u_textColor : option string;
  u_animationDuration : option string
}.

Record Config := mkConfig {
  attr : string;
  activeClass : string;
  color : string;
  textColor : string;
  animationDuration : string
}.

(** The [??] operator. *)
Definition orDefault (o : option string) (d : string) : string :=
  match o with Some v => v | None => d end.

(** ** Hint spans *)

(** The inline declarations of the default presentation.  [left] and [top]
    are computed from the bound element's layout box and the scroll offsets;
    the span records the element they are computed from. *)
Record InlineStyle := mkInline {
  st_position : string;
  st_anchor : HTMLElement;
  st_zIndex : string;
  st_backgroundColor : string;
  st_color : string;
  st_fontSize : string;
  st_padding : string;
  st_borderRadius : string;
  st_border : string;
  st_opacity : string
}.

Record Label := mkLabel {
  textContent : string;
  classList : list string;
  style : option InlineStyle;
  (* the once-listener that removes the span on [animationend] *)
  removeOnAnimationEnd : bool
}.

Definition classAdd (c : string) (cl : list string) : list string :=
  if existsb (String.eqb c) cl then cl else cl ++ [c].

Definition exiting (l : Label) : bool :=
  existsb (String.eqb "fade-out") (classList l).

(** ** Styles *)

(** The values the injected [.mnemo-label] rule takes from the configuration;
    the rule's fixed declarations are not recorded. *)
Record MnemoStyle := mkStyle {
  rule_backgroundColor : string;
  rule_color : string;
  rule_animationDuration : string
}.

(** ** Session state *)

(** Locations of arrays in the store. *)
Abbreviation loc := nat (only parsing).

Inductive Effect :=
| Focus (el : HTMLElement)
| Dispatch (el : HTMLElement) (type key : string).

Record State := mkState {
  isAltActive : bool;
  config : Config;
  accessMap : list (string * loc);
  observer : bool;
  pendingGroup : option loc;
  (* the page *)
  heap : list (list HTMLElement);
  document : DomNode;
  labels : list Label;
  mnemoStyle : option MnemoStyle;
  effects : list Effect
}.

Definition set_isAltActive (b : bool) (s : State) : State :=
  mkState b (config s) (accessMap s) (observer s) (pendingGroup s)
          (heap s) (document s) (labels s) (mnemoStyle s) (effects s).

Definition set_index (m : list (string * loc)) (h : list (list HTMLElement))
    (s : State) : State :=
  mkState (isAltActive s) (config s) m (observer s) (pendingGroup s)
          h (document s) (labels s) (mnemoStyle s) (effects s).

Definition set_observer (b : bool) (s : State) : State :=
  mkState (isAltActive s) (config s) (accessMap s) b (pendingGroup s)
          (heap s) (document s) (labels s) (mnemoStyle s) (effects s).

Definition set_pendingGroup (g : option loc) (s : State) : State :=
  mkState (isAltActive s) (config s) (accessMap s) (observer s) g
          (heap s) (document s) (labels s) (mnemoStyle s) (effects s).

Definition set_document (d : DomNode) (s : State) : State :=
  mkState (isAltActive s) (config s) (accessMap s) (observer s) (pendingGroup s)
          (heap s) d (labels s) (mnemoStyle s) (effects s).

Definition set_labels (ls : list Label) (s : State) : State :=
  mkState (isAltActive s) (config s) (accessMap s) (observer s) (pendingGroup s)
          (heap s) (document s) ls (mnemoStyle s) (effects s).

Definition set_mnemoStyle (t : option MnemoStyle) (s : State) : State :=
  mkState (isAltActive s) (config s) (accessMap s) (observer s) (pendingGroup s)
          (heap s) (document s) (labels s) t (effects s).

Definition log (e : list Effect) (s : State) : State :=
  mkState (isAltActive s) (config s) (accessMap s) (observer s) (pendingGroup s)
          (heap s) (document s) (labels s) (mnemoStyle s) (effects s ++ e).

(** The array a location refers to. *)
Definition deref (h : list (list HTMLElement)) (l : loc) : list HTMLElement :=
  default [] (h !! l).

(** ** scanDocument *)

(** One round of the [forEach] callback: [key] is the lower-cased attribute
    value; a missing or empty one is skipped; an existing key's array is
    extended in place, a new key gets a fresh one-element array. *)
Definition scanStep (attr : string)
    (st : list (list HTMLElement) * list (string * loc)) (el : HTMLElement)
    : list (list HTMLElement) * list (string * loc) :=
  let '(h, m) := st in
  let key := Js.toLowerCase <$> getAttribute attr el in
  if negb (Js.truthy key) then st
  else
    let k := default "" key in
    match assocGet k m with
    | Some l => (alter (fun a => a ++ [el]) l h, m)
    | None => (h ++ [[el]], m ++ [(k, length h)])
    end.

Definition scanDocument (s : State) : State :=
  let elements := querySelectorAll (attr (config s)) (document s) in
  let '(h, m) := fold_left (scanStep (attr (config s))) elements (heap s, []) in
  set_index m h s.

(** ** Hints *)

(** Guarded by [getElementById('mnemo-style')]: the block is injected once. *)
Definition ensureMnemoStyles (s : State) : State :=
  match mnemoStyle s with
  | Some _ => s
  | None =>
      set_mnemoStyle
        (Some (mkStyle (color (config s)) (textColor (config s))
                       (animationDuration (config s)))) s
  end.

Definition fadeOut (n : Label) : Label :=
  mkLabel (textContent n) (classAdd "fade-out" (classList n)) (style n) true.

Definition labelText (elements : list HTMLElement) (key : string) (i : nat)
    : string :=
  if 1 <? length elements
  then (Js.toUpperCase key ++ Js.numberToString (i + 1))%string
  else Js.toUpperCase key.

(** A span of the default presentation, as it is appended. *)
Definition inlineHint (text : string) (el : HTMLElement) : Label :=
  mkLabel text ["mnemo-label"]
    (Some (mkInline "absolute" el "9999" "#000" "#fff" "10px"
                    "2px 4px" "6px" "1px grey solid" "0.9"))
    false.

(** The span built for one element; [None] when the callback returns before
    appending it. *)
Definition makeLabel (activeKey : option string) (classes : option (list string))
    (elements : list HTMLElement) (key : string) (i : nat) (el : HTMLElement)
    : option Label :=
  let text := labelText elements key i in
  if Js.truthy activeKey && negb (String.eqb key (default "" activeKey))
  then None
  else
    match classes with
    | Some cs =>
        Some (mkLabel text (fold_left (fun cl c => classAdd c cl) cs ["mnemo-label"])
                      None false)
    | None => Some (inlineHint text el)
    end.

Definition groupLabels (activeKey : option string) (classes : option (list string))
    (h : list (list HTMLElement)) (entry : string * loc) : list Label :=
  let '(key, l) := entry in
  let elements := deref h l in
  omap id (imap (makeLabel activeKey classes elements key) elements).

Definition markMnemonics (show : bool) (activeKey : option string)
    (classes : option (list string)) (s : State) : State :=
  let s1 := ensureMnemoStyles s in
  let s2 := set_labels (fadeOut <$> labels s1) s1 in
  if negb show then s2
  else
    set_labels
      (labels s2 ++ flat_map (groupLabels activeKey classes (heap s2)) (accessMap s2))
      s2.

Definition resetMnemonics (s : State) : State :=
  markMnemonics false None None
    (set_pendingGroup None (set_isAltActive false s)).

(** ** Key handlers *)

(** The [keydown] listener.  [trigger] stands for [triggerElement], which
    itself sends a [keydown] event that bubbles back to this listener; the
    knot is tied in [triggerElement] below. *)
Definition keydownWith (trigger : HTMLElement -> State -> State)
    (key : string) (s : State) : State * bool :=
  if String.eqb key "Escape" then (resetMnemonics s, false)
  else if String.eqb key "Alt" then
    (if negb (isAltActive s)
     then markMnemonics true None None (set_isAltActive true s)
     else s, true)
  else
    match pendingGroup s, Js.digit19 key with
    | Some g, Some d =>
        let index := d - 1 in
        let s1 :=
          match deref (heap s) g !! index with
          | Some el => trigger el s
          | None => s
          end in
        (resetMnemonics s1, false)
    | _, _ =>
        if isAltActive s && (String.length key =? 1) then
          let k := Js.toLowerCase key in
          match assocGet k (accessMap s) with
          | None => (s, false)
          | Some l =>
              match deref (heap s) l with
              | [] => (s, false)
              | [el] => (resetMnemonics (trigger el s), true)
              | _ => (markMnemonics true (Some k) None
                        (set_pendingGroup (Some l) s), true)
              end
          end
        else (s, false)
    end.

Definition onKeyup (key : string) (s : State) : State :=
  if String.eqb key "Alt" then resetMnemonics s else s.

(** [focus], then an Enter press and release sent to the element.  Both
    events bubble, so the window listeners above run on them, with the key
    [Enter]; on that key the [keydown] listener reaches no call of
    [triggerElement] (lemma [keydownWith_Enter]). *)
Definition triggerElement (el : HTMLElement) (s : State) : State :=
  let s1 := log [Focus el] s in
  let s2 := log [Dispatch el "keydown" "Enter"] s1 in
  let s3 := fst (keydownWith (fun _ s => s) "Enter" s2) in
  let s4 := log [Dispatch el "keyup" "Enter"] s3 in
  onKeyup "Enter" s4.

Definition onKeydown (key : string) (s : State) : State * bool :=
  keydownWith triggerElement key s.

(** ** Initialisation and events *)

Definition setupObserver (s : State) : State := set_observer true s.

(** The first call of [initMnemonics] on a page whose tree is [doc]: the
    module's variables still hold their initial values. *)
Definition initMnemonics (userConfig : MnemonicConfig) (doc : DomNode) : State :=
  let cfg :=
    mkConfig (orDefault (u_attr userConfig) "data-accesskey")
             (orDefault (u_activeClass userConfig) "mnemonic-active")
             (orDefault (u_color userConfig) "")
             (orDefault (u_textColor userConfig) "")
             (orDefault (u_animationDuration userConfig) "0.15s") in
  setupObserver
    (scanDocument (mkState false cfg [] false None [] doc [] None [])).

(** What the event loop delivers: key events, a batch of structural changes
    that leaves the tree as [doc], and the end of a span's animation.
    Appending hint spans to [document.body] is itself a structural change, so
    the observer also runs, over an unchanged host tree, after a listener has
    rendered hints: [Mutation (document s)]. *)
Inductive Event :=
| KeyDown (key : string)
| KeyUp (key : string)
| Mutation (doc : DomNode)
| AnimationEnd (i : nat).

Definition onMutation (doc : DomNode) (s : State) : State :=
  let s1 := set_document doc s in
  if observer s1 then scanDocument s1 else s1.

Definition onAnimationEnd (i : nat) (s : State) : State :=
  match labels s !! i with
  | Some n =>
      if removeOnAnimationEnd n then set_labels (delete i (labels s)) s else s
  | None => s
  end.

Definition step (s : State) (e : Event) : State :=
  match e with
  | KeyDown key => fst (onKeydown key s)
  | KeyUp key => onKeyup key s
  | Mutation doc => onMutation doc s
  | AnimationEnd i => onAnimationEnd i s
  end.

Definition run (s : State) (evs : list Event) : State := fold_left step evs s.

(** ** Reading the state *)

Definition Idle (s : State) : Prop :=
  isAltActive s = false /\ pendingGroup s = None.

Definition Armed (s : State) : Prop :=
  isAltActive s = true /\ pendingGroup s = None.

(** The array [pendingGroup] refers to. *)
Definition activeGroup (s : State) : option (list HTMLElement) :=
  l ← pendingGroup s; heap s !! l.

Definition Disambiguating (s : State) (g : list HTMLElement) : Prop :=
  isAltActive s = true /\ activeGroup s = Some g.

(** The hints on screen that are not fading out. *)
Definition visibleHints (s : State) : list Label :=
  List.filter (fun n => negb (exiting n)) (labels s).

(** What [accessMap.get(key)] yields, as a value. *)
Definition lookupGroup (s : State) (key : string) : option (list HTMLElement) :=
  deref (heap s) <$> assocGet key (accessMap s).

(** The index as a value: keys in insertion order, each with its array. *)
Definition indexOf (s : State) : list (string * list HTMLElement) :=
  (fun e : string * loc => (e.1, deref (heap s) e.2)) <$> accessMap s.

Definition triggerEffects (el : HTMLElement) : list Effect :=
  [Focus el; Dispatch el "keydown" "Enter"; Dispatch el "keyup" "Enter"].

(** ** The index as a value

    [buildIndex] describes what a scan computes without the store: the keys in
    order of first occurrence, each with the elements bound to it in document
    order.  [scanDocument] is shown to compute it ([scanDocument_index]). *)

Fixpoint addBinding (idx : list (string * list HTMLElement)) (k : string)
    (el : HTMLElement) : list (string * list HTMLElement) :=
  match idx with
  | [] => [(k, [el])]
  | (k', g) :: r =>
      if String.eqb k' k then (k', g ++ [el]) :: r
      else (k', g) :: addBinding r k el
  end.

Definition indexStep (attr : string) (idx : list (string * list HTMLElement))
    (el : HTMLElement) : list (string * list HTMLElement) :=
  let key := Js.toLowerCase <$> getAttribute attr el in
  if negb (Js.truthy key) then idx else addBinding idx (default "" key) el.

Definition buildIndex (attr : string) (els : list HTMLElement)
    : list (string * list HTMLElement) :=
  fold_left (indexStep attr) els [].

(** The store and map that hold the index [idx] in arrays allocated after
    the store [h0]. *)
Definition held (h0 : list (list HTMLElement))
    (idx : list (string * list HTMLElement))
    : list (list HTMLElement) * list (string * loc) :=
  (h0 ++ idx.*2, zip (idx.*1) (seq (length h0) (length idx))).

(** ** Colours on screen *)

(** The colour a span is painted with: a declaration in the span's own
    [style] attribute takes precedence over the declaration of the injected
    [.mnemo-label] rule. *)
Definition effectiveBackground (s : State) (n : Label) : option string :=
  match style n with
  | Some st => Some (st_backgroundColor st)
  | None => rule_backgroundColor <$> mnemoStyle s
  end.

Definition effectiveColor (s : State) (n : Label) : option string :=
  match style n with
  | Some st => Some (st_color st)
  | None => rule_color <$> mnemoStyle s
  end.

(** ** Sample pages *)

Module Sample.

Definition tagged (i : nat) (v : string) : HTMLElement :=
  mkElement i [("data-accesskey", v)].

Definition defaults : MnemonicConfig := mkUserConfig None None None None None.

Definition coloured : MnemonicConfig :=
  mkUserConfig None None (Some "red") (Some "blue") None.

Definition open1 := tagged 1 "O".
Definition open2 := tagged 2 "o".
Definition open3 := tagged 3 "o".
Definition save := tagged 4 "s".

Definition pageTwo : DomNode :=
  Dom (mkElement 0 []) [Dom open1 []; Dom open2 [Dom save []]].

Definition pageThree : DomNode :=
  Dom (mkElement 0 []) [Dom open1 []; Dom open2 [Dom save []]; Dom open3 []].

(** The modifier is held and [o] was pressed: two elements are bound. *)
Definition disambiguating : State :=
  run (initMnemonics defaults pageTwo) [KeyDown "Alt"; KeyDown "o"].

End Sample.

(** ** The claims in the spec's words *)

(** Hints that are the upper-cased key alone, one per bound element. *)
Definition singleLetterHints (s : State) : list string :=
  flat_map (fun e : string * list HTMLElement =>
              (fun _ => Js.toUpperCase e.1) <$> e.2) (indexOf s).

(** Letter resolution that does not see a rebuild while the modifier stays
    held: the letter pressed after the rebuild selects the group it would
    have selected before it. *)
Definition staleUntilRearm (s : State) (doc : DomNode) (key : string) : Prop :=
  activeGroup (run s [Mutation doc; KeyDown key])
  = activeGroup (run s [KeyDown key]).

(** ** Properties of states and index entries *)

(** [el] carries the declared attribute with a non-empty value whose lower
    case is [k]. *)
Definition bound (a k : string) (el : HTMLElement) : Prop :=
  exists v, getAttribute a el = Some v /\ v <> "" /\ k = Js.toLowerCase v.

(** An index entry is in order when its array is not empty and each of its
    elements satisfies [Q] and is bound to the entry's key. *)
Definition entryOk (a : string) (Q : HTMLElement -> Prop)
    (e : string * list HTMLElement) : Prop :=
  e.2 <> [] /\ Forall (fun el => Q el /\ bound a e.1 el) e.2.

(** The key name of the digit [d]. *)
Definition digitKey (d : nat) : string :=
  String (ascii_of_nat (48 + d)) EmptyString.

(** The hint texts of one index entry as the code renders them: the bare
    upper-cased key for a key with one element, the key followed by the
    element's 1-based ordinal otherwise. *)
Definition hintTexts (e : string * list HTMLElement) : list string :=
  imap (fun i _ =>
          if decide (length e.2 = 1) then Js.toUpperCase e.1
          else (Js.toUpperCase e.1 ++ Js.numberToString (i + 1))%string) e.2.

(** The hints of the disambiguation view: one per element of the group,
    numbered from 1. *)
Definition numberedHints (k : string) (g : list HTMLElement) : list Label :=
  imap (fun i el =>
          inlineHint (Js.toUpperCase k ++ Js.numberToString (i + 1))%string el) g.

(** The texts of the disambiguation view in the spec's words: the upper-cased
    key followed by each element's 1-based ordinal.  Written without the
    functions that build the spans. *)
Definition numberedTexts (k : string) (g : list HTMLElement) : list string :=
  imap (fun i _ => (Js.toUpperCase k ++ Js.numberToString (i + 1))%string) g.

(** A pending group is held only while the modifier is recorded as held. *)
Definition groupNeedsModifier (s : State) : Prop :=
  pendingGroup s <> None -> isAltActive s = true.

(** The states a session passes through: the one initialisation leaves, and
    those the listeners and the observer lead to. *)
Inductive Reachable : State -> Prop :=
| reach_init cfg doc : Reachable (initMnemonics cfg doc)
| reach_step s e : Reachable s -> Reachable (step s e).

(** ** Further readings of the state *)

(** The key a scan files an element under: the lower-cased value of the
    declared attribute, when the element carries it. *)
Definition keyOf (a : string) (el : HTMLElement) : option string :=
  Js.toLowerCase <$> getAttribute a el.

Definition filedUnder (a k : string) (el : HTMLElement) : bool :=
  match keyOf a el with
  | Some k' => String.eqb k' k
  | None => false
  end.

(** A group extended by further elements; no group arises from nothing. *)
Definition extendGroup (o : option (list HTMLElement)) (g : list HTMLElement)
    : option (list HTMLElement) :=
  match o, g with
  | None, [] => None
  | _, _ => Some (default [] o ++ g)
  end.

(** The elements the spans of the default presentation are placed by. *)
Definition anchors (ls : list Label) : list HTMLElement :=
  omap (fun n => st_anchor <$> style n) ls.

(** Only a span that is fading out carries the listener that removes it. *)
Definition removalOnlyWhenExiting (s : State) : Prop :=
  Forall (fun n => removeOnAnimationEnd n = true -> exiting n = true) (labels s).

(** A pending group refers to an array of at least two elements. *)
Definition pendingGroupValid (s : State) : Prop :=
  forall l, pendingGroup s = Some l ->
    exists g, heap s !! l = Some g /\ 2 <= length g.

(** * Proofs *)

(** ** Strings *)

Lemma toLowerCase_empty s : Js.toLowerCase s = "" <-> s = "".
Proof. destruct s; simpl; split; congruence. Qed.

Lemma truthy_Some s : Js.truthy (Some s) = true <-> s <> "".
Proof. destruct s; simpl; split; congruence. Qed.

(** ** The scan computes the index *)

Section Scan.
Variable a : string.

Lemma assocGet_held_None k el idx b :
  assocGet k (zip (idx.*1) (seq b (length idx))) = None ->
  addBinding idx k el = idx ++ [(k, [el])].
Proof.
  revert b; induction idx as [|[k' g] r IH]; intros b; simpl; [done|].
  destruct (String.eqb k' k); [done|].
  intros H. f_equal. eapply IH, H.
Qed.

Lemma assocGet_held_Some k el idx b l :
  assocGet k (zip (idx.*1) (seq b (length idx))) = Some l ->
  exists i, l = b + i /\ i < length idx /\
    (addBinding idx k el).*1 = idx.*1 /\
    (addBinding idx k el).*2 = alter (fun g => g ++ [el]) i (idx.*2).
Proof.
  revert b; induction idx as [|[k' g] r IH]; intros b; [done|].
  rewrite !fmap_cons. cbn [addBinding assocGet zip_with seq length fst snd].
  destruct (String.eqb k' k).
  - intros [= <-]. exists 0. rewrite !fmap_cons. cbn [fst snd length].
    repeat split; [lia | lia].
  - intros H. destruct (IH _ H) as (i & -> & Hi & H1 & H2).
    exists (S i). rewrite !fmap_cons, H1, H2. cbn [fst snd length].
    repeat split; lia.
Qed.

Lemma scanStep_held h0 idx el :
  scanStep a (held h0 idx) el = held h0 (indexStep a idx el).
Proof.
  unfold scanStep, indexStep, held.
  destruct (negb (Js.truthy (Js.toLowerCase <$> getAttribute a el))); [done|].
  set (k := default "" (Js.toLowerCase <$> getAttribute a el)).
  destruct (assocGet k (zip (idx.*1) (seq (length h0) (length idx))))
    as [l|] eqn:E.
  - destruct (assocGet_held_Some _ el _ _ _ E) as (i & -> & Hi & H1 & H2).
    rewrite H1, H2, alter_app_r.
    replace (length (addBinding idx k el)) with (length idx); [done|].
    rewrite <- (length_fmap fst idx), <- H1. by rewrite length_fmap.
  - rewrite (assocGet_held_None _ el _ _ E).
    rewrite !fmap_app, length_app, !length_app, length_fmap. simpl.
    rewrite seq_app, zip_with_app by (by rewrite length_fmap, length_seq).
    simpl. by rewrite app_assoc.
Qed.

Lemma scan_fold_held els h0 idx :
  fold_left (scanStep a) els (held h0 idx)
  = held h0 (fold_left (indexStep a) els idx).
Proof.
  revert idx; induction els as [|el els IH]; intros idx;
    cbn [fold_left]; [done|].
  by rewrite scanStep_held, IH.
Qed.

Lemma held_view (p : list (list HTMLElement))
    (idx : list (string * list HTMLElement)) :
  (fun e : string * loc => (e.1, deref (p ++ idx.*2) e.2))
    <$> zip (idx.*1) (seq (length p) (length idx)) = idx.
Proof.
  revert p; induction idx as [|[k g] r IH]; intros p; [done|].
  rewrite !fmap_cons. cbn [length seq zip_with fst snd].
  rewrite fmap_cons. cbn [fst snd]. f_equal.
  - unfold deref. by rewrite list_lookup_middle.
  - specialize (IH (p ++ [g])).
    rewrite <- app_assoc, length_app in IH. cbn [length app] in IH.
    by rewrite Nat.add_1_r in IH.
Qed.

End Scan.

Lemma scanDocument_fields s :
  let idx := buildIndex (attr (config s))
               (querySelectorAll (attr (config s)) (document s)) in
  scanDocument s
  = set_index (zip (idx.*1) (seq (length (heap s)) (length idx)))
              (heap s ++ idx.*2) s.
Proof.
  unfold scanDocument.
  pose proof (scan_fold_held (attr (config s))
                (querySelectorAll (attr (config s)) (document s))
                (heap s) []) as H.
  unfold held at 1 in H. simpl in H. rewrite app_nil_r in H.
  rewrite H. reflexivity.
Qed.

(** After a scan the index read through the store is [buildIndex] of the
    tree's tagged elements. *)
Lemma scanDocument_index s :
  indexOf (scanDocument s)
  = buildIndex (attr (config s))
      (querySelectorAll (attr (config s)) (document s)).
Proof.
  rewrite scanDocument_fields. unfold indexOf. simpl. apply held_view.
Qed.

(** A scan allocates new arrays and leaves every existing one as it is. *)
Lemma scanDocument_heap s l g :
  heap s !! l = Some g -> heap (scanDocument s) !! l = Some g.
Proof.
  intros H. rewrite scanDocument_fields. simpl. by apply lookup_app_l_Some.
Qed.

Lemma lookupGroup_indexOf s k : lookupGroup s k = assocGet k (indexOf s).
Proof.
  unfold lookupGroup, indexOf.
  induction (accessMap s) as [|[k' l] r IH]; simpl; [done|].
  destruct (String.eqb k' k); [done | apply IH].
Qed.

Lemma assocGet_In {V} k (m : list (string * V)) v :
  assocGet k m = Some v -> In (k, v) m.
Proof.
  induction m as [|[k' v'] r IH]; simpl; [done|].
  destruct (String.eqb k' k) eqn:E.
  - apply String.eqb_eq in E. intros [= ->]. left. by subst.
  - intros H. right. by apply IH.
Qed.

(** ** What an index holds *)

Section IndexInvariant.
Variable a : string.
Variable Q : HTMLElement -> Prop.

Lemma addBinding_ok idx k el :
  Q el -> bound a k el -> Forall (entryOk a Q) idx ->
  Forall (entryOk a Q) (addBinding idx k el).
Proof.
  intros HQ Hb. induction 1 as [|[k' g] r [Hne Hg] Hr IH]; cbn [addBinding].
  - repeat constructor; [done | done | done].
  - destruct (String.eqb k' k) eqn:E.
    + apply String.eqb_eq in E; subst k'. constructor; [|done].
      split; cbn [fst snd] in *.
      * by destruct g.
      * apply Forall_app; split; [done|]. by repeat constructor.
    + constructor; [by split | done].
Qed.

Lemma indexStep_ok idx el :
  Q el -> Forall (entryOk a Q) idx -> Forall (entryOk a Q) (indexStep a idx el).
Proof.
  intros HQ Hidx. unfold indexStep.
  destruct (getAttribute a el) as [v|] eqn:Ev; cbn; [|done].
  destruct (Js.toLowerCase v) as [|c r] eqn:El; cbn; [done|].
  apply addBinding_ok; [done| |done].
  exists v. repeat split; [done | | done].
  intros ->. discriminate El.
Qed.

Lemma fold_indexStep_ok els idx :
  Forall Q els -> Forall (entryOk a Q) idx ->
  Forall (entryOk a Q) (fold_left (indexStep a) els idx).
Proof.
  intros Hels; revert idx.
  induction Hels as [|el els HQ _ IH]; intros idx Hidx; cbn [fold_left];
    [done|].
  by apply IH, indexStep_ok.
Qed.

End IndexInvariant.

Lemma buildIndex_ok a els :
  Forall (entryOk a (fun el => In el els)) (buildIndex a els).
Proof.
  apply fold_indexStep_ok; [|constructor].
  apply List.Forall_forall. auto.
Qed.

(** Keys are added once. *)
Lemma addBinding_keys idx k el :
  NoDup (idx.*1) -> NoDup ((addBinding idx k el).*1).
Proof.
  assert (Hin : forall idx x, x ∈ (addBinding idx k el).*1 -> x = k \/ x ∈ idx.*1).
  { clear idx. induction idx as [|[k' g] r IH]; intros x; cbn [addBinding].
    - rewrite fmap_cons. cbn. intros ?%list_elem_of_singleton. by left.
    - destruct (String.eqb k' k); rewrite !fmap_cons; cbn [fst].
      + auto.
      + rewrite !elem_of_cons. intros [->|H]; [auto|].
        destruct (IH _ H); auto. }
  induction idx as [|[k' g] r IH]; cbn [addBinding].
  - intros _. rewrite fmap_cons. cbn. apply NoDup_singleton.
  - rewrite fmap_cons. cbn [fst]. intros [Hk' Hr]%NoDup_cons.
    destruct (String.eqb k' k) eqn:E; rewrite fmap_cons; cbn [fst].
    + by apply NoDup_cons.
    + apply NoDup_cons; split; [|by apply IH].
      intros [->|H]%Hin; [|done].
      by rewrite String.eqb_refl in E.
Qed.

Lemma buildIndex_keys a els : NoDup ((buildIndex a els).*1).
Proof.
  unfold buildIndex.
  assert (H : forall idx, NoDup (idx.*1) ->
            NoDup ((fold_left (indexStep a) els idx).*1)).
  { induction els as [|el els IH]; intros idx Hidx; cbn [fold_left]; [done|].
    apply IH. unfold indexStep.
    destruct (negb _); [done | by apply addBinding_keys]. }
  apply H. constructor.
Qed.

Lemma scanDocument_keys s :
  (accessMap (scanDocument s)).*1
  = (buildIndex (attr (config s))
       (querySelectorAll (attr (config s)) (document s))).*1.
Proof.
  rewrite scanDocument_fields. cbn.
  apply fst_zip. by rewrite length_fmap, length_seq.
Qed.

(** ** Index rebuilds *)

(** C7. After a rebuild of the index, every key the mapping holds maps to a
    non-empty sequence of elements; the key is the lower-cased value of the
    declared attribute of each of these elements, which are tagged elements of
    the tree; and an element whose attribute is missing or empty is in the
    sequence of no key. *)
Theorem scanDocument_invariant (s : State) :
  let a := attr (config s) in
  let s' := scanDocument s in
  (forall k g, lookupGroup s' k = Some g ->
     g <> [] /\
     forall el, In el g ->
       In el (querySelectorAll a (document s)) /\
       exists v, getAttribute a el = Some v /\ k = Js.toLowerCase v) /\
  (forall el, getAttribute a el = None \/ getAttribute a el = Some "" ->
     forall k g, lookupGroup s' k = Some g -> ~ In el g).
Proof.
  intros a s'.
  assert (H : forall k g, lookupGroup s' k = Some g ->
            g <> [] /\ forall el, In el g ->
              In el (querySelectorAll a (document s)) /\ bound a k el).
  { intros k g Hk. subst s'.
    rewrite lookupGroup_indexOf, scanDocument_index in Hk.
    apply assocGet_In in Hk.
    pose proof (buildIndex_ok a (querySelectorAll a (document s))) as Hok.
    rewrite List.Forall_forall in Hok. destruct (Hok _ Hk) as [Hne Hg].
    split; [done|]. intros el Hel. cbn [fst snd] in Hg.
    rewrite List.Forall_forall in Hg. by apply Hg. }
  split.
  - intros k g Hk. destruct (H _ _ Hk) as [Hne Hg]. split; [done|].
    intros el Hel. destruct (Hg _ Hel) as [Hq (v & Hv & _ & ->)]. eauto.
  - intros el Hel k g Hk Hin.
    destruct (H _ _ Hk) as [_ Hg].
    destruct (Hg _ Hin) as [_ (v & Hv & Hne & _)].
    destruct Hel as [E|E]; rewrite E in Hv; [done|].
    by injection Hv as <-.
Qed.

(** C8. Rebuilding the index a second time over the same tree gives the same
    keys in the same order, each with the same elements in the same order. *)
Theorem scanDocument_idempotent (s : State) :
  indexOf (scanDocument (scanDocument s)) = indexOf (scanDocument s) /\
  (accessMap (scanDocument (scanDocument s))).*1
    = (accessMap (scanDocument s)).*1 /\
  forall k, lookupGroup (scanDocument (scanDocument s)) k
            = lookupGroup (scanDocument s) k.
Proof.
  assert (Hc : config (scanDocument s) = config s)
    by (by rewrite scanDocument_fields).
  assert (Hd : document (scanDocument s) = document s)
    by (by rewrite scanDocument_fields).
  assert (Hi : indexOf (scanDocument (scanDocument s)) = indexOf (scanDocument s))
    by (by rewrite !scanDocument_index, Hc, Hd).
  split; [done|]. split.
  - by rewrite !scanDocument_keys, Hc, Hd.
  - intros k. by rewrite !lookupGroup_indexOf, Hi.
Qed.

(** ** Hints and reset *)

Lemma exiting_fadeOut n : exiting (fadeOut n) = true.
Proof.
  unfold exiting, fadeOut, classAdd; cbn [classList].
  destruct (existsb (String.eqb "fade-out") (classList n)) eqn:E; [done|].
  rewrite existsb_app, E. reflexivity.
Qed.

Lemma filter_fadeOut ls :
  List.filter (fun n => negb (exiting n)) (fadeOut <$> ls) = [].
Proof.
  induction ls as [|n ls IH]; [done|].
  rewrite fmap_cons. cbn [List.filter]. by rewrite exiting_fadeOut.
Qed.

Lemma visibleHints_reset s : visibleHints (resetMnemonics s) = [].
Proof.
  unfold visibleHints, resetMnemonics, markMnemonics. cbn.
  unfold ensureMnemoStyles. destruct (mnemoStyle _); apply filter_fadeOut.
Qed.

Lemma reset_Idle s : Idle (resetMnemonics s).
Proof.
  unfold Idle, resetMnemonics, markMnemonics, ensureMnemoStyles. cbn.
  by destruct (mnemoStyle s).
Qed.

Lemma reset_effects s : effects (resetMnemonics s) = effects s.
Proof.
  unfold resetMnemonics, markMnemonics, ensureMnemoStyles. cbn.
  by destruct (mnemoStyle s).
Qed.

Lemma reset_index s :
  accessMap (resetMnemonics s) = accessMap s /\
  heap (resetMnemonics s) = heap s /\
  config (resetMnemonics s) = config s /\
  observer (resetMnemonics s) = observer s /\
  document (resetMnemonics s) = document s.
Proof.
  unfold resetMnemonics, markMnemonics, ensureMnemoStyles. cbn.
  by destruct (mnemoStyle s).
Qed.

Lemma mark_show_fields k s :
  let s' := markMnemonics true k None s in
  isAltActive s' = isAltActive s /\ pendingGroup s' = pendingGroup s /\
  effects s' = effects s /\ accessMap s' = accessMap s /\ heap s' = heap s /\
  config s' = config s /\ observer s' = observer s /\
  document s' = document s /\
  labels s'
  = (fadeOut <$> labels s) ++ flat_map (groupLabels k None (heap s)) (accessMap s).
Proof.
  unfold markMnemonics, ensureMnemoStyles. cbn.
  by destruct (mnemoStyle s).
Qed.

(** The spans of one rendering are the visible ones after it. *)
Lemma visibleHints_mark k s :
  visibleHints (markMnemonics true k None s)
  = flat_map (groupLabels k None (heap s)) (accessMap s).
Proof.
  unfold visibleHints.
  destruct (mark_show_fields k s) as (_ & _ & _ & _ & _ & _ & _ & _ & ->).
  rewrite List.filter_app, filter_fadeOut. cbn [app].
  apply forallb_filter_id, forallb_forall.
  intros n (e & _ & Hn)%in_flat_map. destruct e as [key l].
  unfold groupLabels in Hn. apply list_elem_of_In in Hn.
  apply list_elem_of_omap in Hn as (o & Ho & Hid). cbn in Hid. subst o.
  apply list_elem_of_lookup in Ho as (i & Hi).
  rewrite list_lookup_imap in Hi.
  destruct (deref (heap s) l !! i) as [el|]; [|done]. cbn in Hi.
  unfold makeLabel in Hi. destruct (_ && _); [done|].
  by injection Hi as <-.
Qed.

(** ** The synthesized Enter events *)

Lemma keydownWith_Enter t s : keydownWith t "Enter" s = (s, false).
Proof.
  unfold keydownWith. cbn.
  destruct (pendingGroup s), (isAltActive s); reflexivity.
Qed.

Lemma triggerElement_log el s : triggerElement el s = log (triggerEffects el) s.
Proof.
  unfold triggerElement. rewrite keydownWith_Enter. cbn.
  unfold log, triggerEffects. cbn. f_equal. by rewrite <- !app_assoc.
Qed.

(** ** Digit keys *)

Lemma digit19_digitKey d : 1 <= d <= 9 -> Js.digit19 (digitKey d) = Some d.
Proof.
  intros [H1 H9].
  do 10 (destruct d as [|d]; [first [lia | reflexivity]|]). lia.
Qed.

Lemma digit19_single key d :
  Js.digit19 key = Some d ->
  String.eqb key "Escape" = false /\ String.eqb key "Alt" = false /\
  String.length key = 1.
Proof.
  destruct key as [|c [|c' r]]; [done| |done]. intros _. cbn.
  by destruct (Ascii.eqb c "E"), (Ascii.eqb c "A").
Qed.

Lemma deref_lookup h l g : h !! l = Some g -> deref h l = g.
Proof. unfold deref. by intros ->. Qed.

Lemma activeGroup_Some s g :
  activeGroup s = Some g ->
  exists l, pendingGroup s = Some l /\ heap s !! l = Some g.
Proof.
  unfold activeGroup. destruct (pendingGroup s) as [l|]; [|done].
  cbn. eauto.
Qed.

(** The digit branch, for a key matching [1-9] while a group is pending. *)
Lemma onKeydown_digit s l key d :
  pendingGroup s = Some l -> Js.digit19 key = Some d ->
  onKeydown key s
  = (resetMnemonics
       (match deref (heap s) l !! (d - 1) with
        | Some el => triggerElement el s
        | None => s
        end), false).
Proof.
  intros Hp Hd. destruct (digit19_single _ _ Hd) as (E1 & E2 & _).
  unfold onKeydown, keydownWith. by rewrite E1, E2, Hp, Hd.
Qed.

Lemma digit_branch_effects s g key d :
  activeGroup s = Some g -> Js.digit19 key = Some d ->
  let s' := (onKeydown key s).1 in
  effects s'
  = effects s ++ match g !! (d - 1) with
                 | Some el => triggerEffects el
                 | None => []
                 end /\
  Idle s' /\ visibleHints s' = [].
Proof.
  intros (l & Hp & Hl)%activeGroup_Some Hd s'. subst s'.
  rewrite (onKeydown_digit s l key d Hp Hd).
  cbn [fst]. rewrite (deref_lookup _ _ _ Hl), reset_effects.
  split; [|split; [apply reset_Idle | apply visibleHints_reset]].
  destruct (g !! (d - 1)) as [el|].
  - by rewrite triggerElement_log.
  - by rewrite app_nil_r.
Qed.

(** C4. While disambiguating with group [g], the digit key [d] (1 to 9)
    triggers [g[d-1]] and nothing else when that element exists (focus, then
    an Enter press and release sent to it), and triggers nothing when it does
    not; either way the session is back in Idle and no hint stays visible. *)
Theorem digit_resolves_in_group (s : State) (g : list HTMLElement) (d : nat) :
  Disambiguating s g -> 1 <= d <= 9 ->
  let s' := (onKeydown (digitKey d) s).1 in
  effects s'
  = effects s ++ match g !! (d - 1) with
                 | Some el => triggerEffects el
                 | None => []
                 end /\
  Idle s' /\ visibleHints s' = [].
Proof.
  intros [_ Hg] Hd.
  exact (digit_branch_effects s g (digitKey d) d Hg (digit19_digitKey d Hd)).
Qed.

(** [resetMnemonics] does the same from every state. *)
Lemma cancel_from_any_state s :
  Idle (resetMnemonics s) /\ activeGroup (resetMnemonics s) = None /\
  visibleHints (resetMnemonics s) = [].
Proof.
  pose proof (reset_Idle s) as HI. split; [done|]. split.
  - unfold activeGroup. by rewrite (proj2 HI).
  - apply visibleHints_reset.
Qed.

(** C6. From Armed, and from Disambiguating, the Escape key and the release
    of the modifier both leave the session in Idle, with no pending group and
    no hint that is not fading out. *)
Theorem cancel_returns_to_Idle (s : State) (g : list HTMLElement) :
  Armed s \/ Disambiguating s g ->
  (Idle (step s (KeyDown "Escape")) /\
   activeGroup (step s (KeyDown "Escape")) = None /\
   visibleHints (step s (KeyDown "Escape")) = []) /\
  (Idle (step s (KeyUp "Alt")) /\
   activeGroup (step s (KeyUp "Alt")) = None /\
   visibleHints (step s (KeyUp "Alt")) = []).
Proof.
  intros _.
  change (step s (KeyDown "Escape")) with (resetMnemonics s).
  change (step s (KeyUp "Alt")) with (resetMnemonics s).
  split; apply cancel_from_any_state.
Qed.

(** ** Rendering *)

Lemma omap_imap_Some {A B} (f : nat -> A -> B) (l : list A) :
  omap id (imap (fun i x => Some (f i x)) l) = imap f l.
Proof.
  revert f; induction l as [|x l IH]; intros f; [done|].
  cbn. f_equal. apply IH.
Qed.

Lemma omap_imap_None {A B} (l : list A) :
  omap id (imap (fun _ _ => @None B) l) = [].
Proof. induction l as [|x l IH]; [done|]. cbn. apply IH. Qed.

Lemma groupLabels_all h key l :
  groupLabels None None h (key, l)
  = imap (fun i el => inlineHint (labelText (deref h l) key i) el) (deref h l).
Proof. unfold groupLabels, makeLabel. cbn. apply omap_imap_Some. Qed.

Lemma groupLabels_active h k key l :
  k <> "" ->
  groupLabels (Some k) None h (key, l)
  = if String.eqb key k
    then imap (fun i el => inlineHint (labelText (deref h l) key i) el)
              (deref h l)
    else [].
Proof.
  intros Hk. unfold groupLabels, makeLabel.
  apply truthy_Some in Hk. rewrite Hk. cbn.
  destruct (String.eqb key k); cbn.
  - apply omap_imap_Some.
  - apply omap_imap_None.
Qed.

Lemma labelText_cases g k i :
  (length g = 1 -> labelText g k i = Js.toUpperCase k) /\
  (2 <= length g ->
   labelText g k i = (Js.toUpperCase k ++ Js.numberToString (i + 1))%string).
Proof.
  unfold labelText. split; intros H.
  - by rewrite H.
  - destruct (Nat.ltb_spec 1 (length g)); [done | lia].
Qed.

Lemma groupLabels_texts h key l :
  textContent <$> groupLabels None None h (key, l)
  = hintTexts (key, deref h l).
Proof.
  rewrite groupLabels_all. unfold hintTexts. cbn [fst snd].
  rewrite fmap_imap. apply imap_ext. intros i el Hi. cbn.
  unfold labelText. apply lookup_lt_Some in Hi.
  destruct (decide (length (deref h l) = 1)) as [->|Hn]; [done|].
  destruct (Nat.ltb_spec 1 (length (deref h l))); [done | lia].
Qed.

Lemma onKeydown_Alt_idle s :
  isAltActive s = false ->
  onKeydown "Alt" s
  = (markMnemonics true None None (set_isAltActive true s), true).
Proof. intros H. unfold onKeydown, keydownWith. cbn. by rewrite H. Qed.

(** C1, as the code has it.  Pressing the modifier in Idle arms the session
    and shows one hint per bound element, in index order: the upper-cased key
    alone for a key with a single element, and the upper-cased key followed
    by the element's 1-based ordinal for a key shared by several. *)
Theorem armed_hints (s : State) :
  Idle s ->
  let s' := step s (KeyDown "Alt") in
  Armed s' /\
  textContent <$> visibleHints s' = flat_map hintTexts (indexOf s).
Proof.
  intros [Ha Hp] s'. subst s'. cbn [step].
  rewrite (onKeydown_Alt_idle s Ha). cbn [fst].
  destruct (mark_show_fields None (set_isAltActive true s))
    as (E1 & E2 & _).
  split; [split; [by rewrite E1 | by rewrite E2]|].
  rewrite visibleHints_mark. cbn [heap accessMap set_isAltActive].
  unfold indexOf.
  induction (accessMap s) as [|[k l] r IH]; [done|].
  rewrite fmap_cons. cbn [flat_map fst snd].
  by rewrite fmap_app, IH, groupLabels_texts.
Qed.

(** ** Letter keys *)

Lemma single_char_not_named key :
  String.length key = 1 ->
  String.eqb key "Escape" = false /\ String.eqb key "Alt" = false.
Proof.
  destruct key as [|c [|c' r]]; [done| |done]. intros _. cbn.
  by destruct (Ascii.eqb c "E"), (Ascii.eqb c "A").
Qed.

(** The letter branch: a one-character key while the modifier is recorded
    as held, when the digit branch does not take the key. *)
Lemma onKeydown_letter s key :
  isAltActive s = true -> String.length key = 1 ->
  pendingGroup s = None \/ Js.digit19 key = None ->
  onKeydown key s
  = match assocGet (Js.toLowerCase key) (accessMap s) with
    | None => (s, false)
    | Some l =>
        match deref (heap s) l with
        | [] => (s, false)
        | [el] => (resetMnemonics (triggerElement el s), true)
        | _ => (markMnemonics true (Some (Js.toLowerCase key)) None
                  (set_pendingGroup (Some l) s), true)
        end
    end.
Proof.
  intros Ha Hlen Hd. destruct (single_char_not_named _ Hlen) as [E1 E2].
  unfold onKeydown, keydownWith. rewrite E1, E2, Ha, Hlen.
  destruct Hd as [-> | ->]; [done|]. by destruct (pendingGroup s).
Qed.

Lemma lookupGroup_Some s k g :
  lookupGroup s k = Some g -> g <> [] ->
  exists l, assocGet k (accessMap s) = Some l /\ heap s !! l = Some g /\
            deref (heap s) l = g.
Proof.
  unfold lookupGroup. destruct (assocGet k (accessMap s)) as [l|]; [|done].
  cbn. intros [= Hg] Hne. exists l. split; [done|].
  unfold deref in *. destruct (heap s !! l); cbn in *; [by subst | done].
Qed.

Lemma flat_map_other {B} k (f : string * loc -> list B) (m : list (string * loc)) :
  k ∉ m.*1 ->
  flat_map (fun e => if String.eqb e.1 k then f e else []) m = [].
Proof.
  induction m as [|[k' l'] r IH]; [done|].
  rewrite fmap_cons, not_elem_of_cons. cbn [fst flat_map]. intros [Hne Hr].
  destruct (String.eqb k' k) eqn:E.
  - apply String.eqb_eq in E. congruence.
  - by apply IH.
Qed.

Lemma flat_map_active {B} k l (f : string * loc -> list B)
    (m : list (string * loc)) :
  NoDup (m.*1) -> assocGet k m = Some l ->
  flat_map (fun e => if String.eqb e.1 k then f e else []) m = f (k, l).
Proof.
  induction m as [|[k' l'] r IH]; [done|].
  rewrite fmap_cons. cbn [fst flat_map assocGet].
  intros [Hk' Hr]%NoDup_cons.
  destruct (String.eqb k' k) eqn:E.
  - apply String.eqb_eq in E. subst k'. intros [= ->].
    by rewrite flat_map_other, app_nil_r.
  - intros H. by apply IH.
Qed.

Lemma letter_single s key el :
  isAltActive s = true -> String.length key = 1 ->
  pendingGroup s = None \/ Js.digit19 key = None ->
  lookupGroup s (Js.toLowerCase key) = Some [el] ->
  onKeydown key s = (resetMnemonics (log (triggerEffects el) s), true).
Proof.
  intros Ha Hlen Hd Hg. rewrite (onKeydown_letter s key Ha Hlen Hd).
  destruct (lookupGroup_Some _ _ _ Hg) as (l & -> & _ & ->); [done|].
  by rewrite triggerElement_log.
Qed.

Lemma letter_group s key g :
  isAltActive s = true -> String.length key = 1 ->
  pendingGroup s = None \/ Js.digit19 key = None ->
  lookupGroup s (Js.toLowerCase key) = Some g -> 2 <= length g ->
  exists l, assocGet (Js.toLowerCase key) (accessMap s) = Some l /\
    heap s !! l = Some g /\
    onKeydown key s
    = (markMnemonics true (Some (Js.toLowerCase key)) None
         (set_pendingGroup (Some l) s), true).
Proof.
  intros Ha Hlen Hd Hg H2. rewrite (onKeydown_letter s key Ha Hlen Hd).
  destruct (lookupGroup_Some _ _ _ Hg) as (l & El & Hl & Dl).
  { intros ->. cbn in H2. lia. }
  exists l. rewrite El, Dl. repeat split; [done|].
  destruct g as [|e1 [|e2 g]]; cbn in H2; [lia | lia | done].
Qed.

Lemma activeGroup_mark k l s :
  activeGroup (markMnemonics true k None (set_pendingGroup (Some l) s))
  = heap s !! l.
Proof.
  unfold activeGroup.
  destruct (mark_show_fields k (set_pendingGroup (Some l) s))
    as (_ & -> & _ & _ & -> & _).
  reflexivity.
Qed.

(** ** Reachable states *)

Lemma Reachable_run s evs : Reachable s -> Reachable (run s evs).
Proof.
  revert s; induction evs as [|e evs IH]; intros s H; [done|].
  cbn. apply IH. by constructor.
Qed.

(** Every branch of the [keydown] listener leaves the index, the store, the
    configuration, the observer and the tree as they are. *)
Lemma onKeydown_frame key s :
  let s' := (onKeydown key s).1 in
  accessMap s' = accessMap s /\ heap s' = heap s /\ config s' = config s /\
  observer s' = observer s /\ document s' = document s.
Proof.
  unfold onKeydown, keydownWith.
  repeat case_match; cbn [fst]; rewrite ?triggerElement_log;
    repeat match goal with
    | |- context [resetMnemonics ?x] =>
        destruct (reset_index x) as (-> & -> & -> & -> & ->)
    | |- context [markMnemonics true ?k None ?x] =>
        destruct (mark_show_fields k x)
          as (_ & _ & _ & -> & -> & -> & -> & -> & _)
    end; done.
Qed.

Lemma step_keys s e :
  NoDup ((accessMap s).*1) -> NoDup ((accessMap (step s e)).*1).
Proof.
  intros H. destruct e as [key|key|doc|i]; cbn [step].
  - by destruct (onKeydown_frame key s) as (-> & _).
  - unfold onKeyup. destruct (String.eqb key "Alt"); [|done].
    by destruct (reset_index s) as (-> & _).
  - unfold onMutation. destruct (observer _); [|done].
    rewrite scanDocument_keys. apply buildIndex_keys.
  - unfold onAnimationEnd. repeat case_match; done.
Qed.

Lemma Reachable_keys s : Reachable s -> NoDup ((accessMap s).*1).
Proof.
  induction 1 as [cfg doc|s e _ IH].
  - unfold initMnemonics, setupObserver. cbn [accessMap set_observer].
    rewrite scanDocument_keys. apply buildIndex_keys.
  - by apply step_keys.
Qed.

(** The spans of the disambiguation view read back: their texts and the
    elements they are placed by. *)
Lemma numberedHints_texts k g :
  textContent <$> numberedHints k g = numberedTexts k g.
Proof.
  unfold numberedHints, numberedTexts. rewrite fmap_imap.
  by apply imap_ext.
Qed.

Lemma inline_hints_anchors (f : nat -> string) (g : list HTMLElement) :
  omap (fun n => st_anchor <$> style n)
    (imap (fun i el => inlineHint (f i) el) g) = g.
Proof.
  revert f. induction g as [|el g IH]; intros f; [done|].
  cbn. f_equal. apply (IH (f ∘ S)).
Qed.

Lemma numberedHints_anchors k g : anchors (numberedHints k g) = g.
Proof. apply inline_hints_anchors. Qed.

(** C9. While disambiguating, a one-character key that is not a digit 1-9
    is resolved against the live index: when its lower-cased form has exactly
    one bound element, that element is triggered and the session returns to
    Idle; when it has two or more, the pending group becomes that key's
    current array, nothing is triggered, the spans shown before are marked to
    fade out, and the visible hints are the new key's numbered hints: one per
    element of the array, in order, placed by that element and reading the
    upper-cased key followed by the element's 1-based ordinal. *)
Theorem letter_while_disambiguating
    (s : State) (g : list HTMLElement) (key : string) :
  Reachable s -> Disambiguating s g ->
  String.length key = 1 -> Js.digit19 key = None ->
  let k := Js.toLowerCase key in
  let s' := (onKeydown key s).1 in
  (forall el, lookupGroup s k = Some [el] ->
     effects s' = effects s ++ triggerEffects el /\
     Idle s' /\ visibleHints s' = []) /\
  (forall g', lookupGroup s k = Some g' -> 2 <= length g' ->
     Disambiguating s' g' /\ effects s' = effects s /\
     textContent <$> visibleHints s' = numberedTexts k g' /\
     anchors (visibleHints s') = g' /\
     labels s' = (fadeOut <$> labels s) ++ visibleHints s').
Proof.
  intros Hr [Ha _] Hlen Hd k s'. subst k s'. split.
  - intros el Hg.
    rewrite (letter_single s key el Ha Hlen (or_intror Hd) Hg). cbn [fst].
    rewrite reset_effects.
    split; [done | split; [apply reset_Idle | apply visibleHints_reset]].
  - intros g' Hg H2.
    destruct (letter_group s key g' Ha Hlen (or_intror Hd) Hg H2)
      as (l & El & Hl & ->).
    cbn [fst].
    assert (Hv : visibleHints
                   (markMnemonics true (Some (Js.toLowerCase key)) None
                      (set_pendingGroup (Some l) s))
                 = numberedHints (Js.toLowerCase key) g').
    { rewrite visibleHints_mark. cbn [heap accessMap set_pendingGroup].
      assert (Hk : Js.toLowerCase key <> "").
      { intros E. apply (proj1 (toLowerCase_empty key)) in E.
        rewrite E in Hlen. discriminate Hlen. }
      rewrite (flat_map_ext _
                 (fun e => if String.eqb e.1 (Js.toLowerCase key)
                           then groupLabels None None (heap s) e else [])).
      2:{ intros [k' l']. rewrite (groupLabels_active _ _ _ _ Hk).
          cbn [fst]. destruct (String.eqb k' _); [|done].
          by rewrite groupLabels_all. }
      rewrite (flat_map_active _ l _ _ (Reachable_keys _ Hr) El).
      rewrite groupLabels_all, (deref_lookup _ _ _ Hl).
      unfold numberedHints. apply imap_ext. intros i el _. cbn. f_equal.
      by apply labelText_cases. }
    destruct (mark_show_fields (Some (Js.toLowerCase key))
                (set_pendingGroup (Some l) s))
      as (Fa & _ & Fe & _ & _ & _ & _ & _ & Fl).
    split; [split; [by rewrite Fa | by rewrite activeGroup_mark]|].
    split; [by rewrite Fe|].
    split; [by rewrite Hv, numberedHints_texts|].
    split; [by rewrite Hv, numberedHints_anchors|].
    rewrite Fl. f_equal. rewrite <- visibleHints_mark. reflexivity.
Qed.

(** ** The pending group and the modifier flag *)

Lemma onKeydown_groupNeedsModifier key s :
  groupNeedsModifier s -> groupNeedsModifier (onKeydown key s).1.
Proof.
  unfold groupNeedsModifier, onKeydown, keydownWith. intros H.
  repeat case_match; cbn [fst]; rewrite ?triggerElement_log;
    try (intros Hp; exfalso; apply Hp; apply reset_Idle);
    try done;
    try match goal with
    | |- context [markMnemonics true ?k None ?x] =>
        destruct (mark_show_fields k x) as (-> & -> & _)
    end;
    cbn; intros Hp;
    first [ done | by apply H
          | match goal with
            | Hc : isAltActive _ && _ = true |- _ =>
                by apply andb_prop in Hc as [? _]
            end ].
Qed.

Lemma step_groupNeedsModifier s e :
  groupNeedsModifier s -> groupNeedsModifier (step s e).
Proof.
  intros H. destruct e as [key|key|doc|i]; cbn [step].
  - by apply onKeydown_groupNeedsModifier.
  - unfold onKeyup. destruct (String.eqb key "Alt"); [|done].
    intros Hp. exfalso. apply Hp, reset_Idle.
  - unfold onMutation. destruct (observer _); [|done].
    unfold groupNeedsModifier. by rewrite scanDocument_fields.
  - unfold onAnimationEnd. repeat case_match; done.
Qed.

Lemma init_groupNeedsModifier cfg doc :
  groupNeedsModifier (initMnemonics cfg doc).
Proof.
  unfold groupNeedsModifier, initMnemonics, setupObserver.
  cbn [pendingGroup set_observer]. by rewrite scanDocument_fields.
Qed.

(** C10. A pending disambiguation group implies that the modifier is recorded
    as held: the property holds after initialisation and every listener run
    keeps it, so it holds in every state the session reaches. *)
Theorem pendingGroup_implies_isAltActive (s : State) (l : loc) :
  Reachable s -> pendingGroup s = Some l -> isAltActive s = true.
Proof.
  intros Hr Hp.
  assert (H : groupNeedsModifier s).
  { clear l Hp. induction Hr as [cfg doc|s e _ IH].
    - apply init_groupNeedsModifier.
    - by apply step_groupNeedsModifier. }
  apply H. by rewrite Hp.
Qed.

(** ** The frozen group *)

Lemma onMutation_observing doc s :
  observer s = true -> onMutation doc s = scanDocument (set_document doc s).
Proof. intros H. unfold onMutation. cbn [observer set_document]. by rewrite H. Qed.

Lemma onMutation_group doc s g :
  activeGroup s = Some g -> activeGroup (onMutation doc s) = Some g.
Proof.
  intros (l & Hp & Hl)%activeGroup_Some. unfold onMutation, activeGroup.
  destruct (observer _).
  - pose proof (scanDocument_heap (set_document doc s) l g Hl) as Hl'.
    rewrite scanDocument_fields in *. cbn in *. rewrite Hp. by cbn.
  - cbn. rewrite Hp. by cbn.
Qed.

Lemma onMutation_flags doc s :
  isAltActive (onMutation doc s) = isAltActive s /\
  pendingGroup (onMutation doc s) = pendingGroup s /\
  effects (onMutation doc s) = effects s /\
  config (onMutation doc s) = config s /\
  observer (onMutation doc s) = observer s.
Proof.
  unfold onMutation. destruct (observer (set_document doc s)) eqn:E.
  - rewrite scanDocument_fields. by cbn.
  - by cbn.
Qed.

Lemma mutations_keep s g docs :
  Disambiguating s g ->
  let s1 := run s (Mutation <$> docs) in
  Disambiguating s1 g /\ config s1 = config s /\ observer s1 = observer s /\
  effects s1 = effects s.
Proof.
  revert s; induction docs as [|doc docs IH]; intros s [Ha Hg]; [done|].
  rewrite fmap_cons. cbn [run fold_left step].
  destruct (onMutation_flags doc s) as (E1 & _ & E3 & E4 & E5).
  destruct (IH (onMutation doc s)) as (H1 & H2 & H3 & H4).
  { split; [by rewrite E1 | by apply onMutation_group]. }
  cbn zeta in *. unfold run in *. by rewrite H2, H3, H4.
Qed.

Lemma run_app s evs1 evs2 : run s (evs1 ++ evs2) = run (run s evs1) evs2.
Proof. apply fold_left_app. Qed.

(** Releasing the modifier and pressing it again arms the session over the
    index as it stands. *)
Lemma rearm_fields s :
  let s2 := run s [KeyUp "Alt"; KeyDown "Alt"] in
  isAltActive s2 = true /\ pendingGroup s2 = None /\
  accessMap s2 = accessMap s /\ heap s2 = heap s.
Proof.
  change (run s [KeyUp "Alt"; KeyDown "Alt"])
    with (onKeydown "Alt" (resetMnemonics s)).1.
  destruct (reset_Idle s) as [Ra Rp].
  destruct (reset_index s) as (Rm & Rh & _).
  rewrite (onKeydown_Alt_idle _ Ra). cbn [fst].
  destruct (mark_show_fields None (set_isAltActive true (resetMnemonics s)))
    as (-> & -> & _ & -> & -> & _).
  by cbn [isAltActive pendingGroup accessMap heap set_isAltActive].
Qed.

(** C2, as the code has it.  Once the session disambiguates on a group, index
    rebuilds leave that group as it was captured, contents and order, and the
    follow-up digit resolves against it.  Letter keys read the live index:
    after the rebuilds a letter with two or more bound elements resolves
    against the index of the current tree, after a release and re-arm of the
    modifier and also when pressed while the session still disambiguates. *)
Theorem group_frozen_letters_live
    (s : State) (g : list HTMLElement) (docs : list DomNode) (doc : DomNode) :
  Disambiguating s g -> observer s = true ->
  let s1 := run s (Mutation <$> docs ++ [doc]) in
  Disambiguating s1 g /\
  (forall d, 1 <= d <= 9 ->
     effects (step s1 (KeyDown (digitKey d)))
     = effects s1 ++ match g !! (d - 1) with
                     | Some el => triggerEffects el
                     | None => []
                     end) /\
  indexOf s1
  = buildIndex (attr (config s)) (querySelectorAll (attr (config s)) doc) /\
  (forall key g',
     String.length key = 1 ->
     assocGet (Js.toLowerCase key) (indexOf s1) = Some g' -> 2 <= length g' ->
     activeGroup (run s1 [KeyUp "Alt"; KeyDown "Alt"; KeyDown key]) = Some g' /\
     (Js.digit19 key = None -> activeGroup (step s1 (KeyDown key)) = Some g')).
Proof.
  intros Hs Hobs s1.
  destruct (mutations_keep s g (docs ++ [doc]) Hs) as (H1 & Hc & Ho & He).
  fold s1 in H1, Hc, Ho, He.
  split; [done|]. split; [|split].
  - intros d Hd.
    by apply (digit_branch_effects s1 g (digitKey d) d (proj2 H1)
                (digit19_digitKey d Hd)).
  - subst s1. rewrite fmap_app, run_app.
    destruct (mutations_keep s g docs Hs) as (_ & Hc0 & Ho0 & _).
    change (indexOf (onMutation doc (run s (Mutation <$> docs))) = 
            buildIndex (attr (config s))
              (querySelectorAll (attr (config s)) doc)).
    rewrite onMutation_observing by (by rewrite Ho0).
    rewrite scanDocument_index. cbn [config document set_document].
    by rewrite Hc0.
  - intros key g' Hlen Hg' H2. rewrite <- lookupGroup_indexOf in Hg'. split.
    + change (run s1 [KeyUp "Alt"; KeyDown "Alt"; KeyDown key])
        with (run (run s1 [KeyUp "Alt"; KeyDown "Alt"]) [KeyDown key]).
      destruct (rearm_fields s1) as (Ma & Mp & Mm & Mh).
      set (s2 := run s1 [KeyUp "Alt"; KeyDown "Alt"]) in *.
      assert (Hg2 : lookupGroup s2 (Js.toLowerCase key) = Some g').
      { unfold lookupGroup in *. by rewrite Mm, Mh. }
      cbn [run fold_left step].
      destruct (letter_group s2 key g' Ma Hlen (or_introl Mp) Hg2 H2)
        as (l & _ & Hl & ->).
      cbn [fst]. by rewrite activeGroup_mark.
    + intros Hd. cbn [step].
      destruct (letter_group s1 key g' (proj1 H1) Hlen (or_intror Hd) Hg' H2)
        as (l & _ & Hl & ->).
      cbn [fst]. by rewrite activeGroup_mark.
Qed.

(** ** Default handling of consumed keys *)

(** The digit branch returns without a call of [preventDefault]. *)
Lemma digit_branch_never_prevents s l key d :
  pendingGroup s = Some l -> Js.digit19 key = Some d ->
  (onKeydown key s).2 = false.
Proof. intros Hp Hd. by rewrite (onKeydown_digit s l key d Hp Hd). Qed.

(** The letter branch calls [preventDefault] exactly when the key has a
    bound element. *)
Lemma letter_branch_prevents s key :
  isAltActive s = true -> String.length key = 1 ->
  pendingGroup s = None \/ Js.digit19 key = None ->
  (onKeydown key s).2
  = match lookupGroup s (Js.toLowerCase key) with
    | Some (_ :: _) => true
    | _ => false
    end.
Proof.
  intros Ha Hlen Hd. rewrite (onKeydown_letter s key Ha Hlen Hd).
  unfold lookupGroup. destruct (assocGet _ _) as [l|]; [|done]. cbn.
  by destruct (deref (heap s) l) as [|e1 [|e2 g]].
Qed.

Lemma unmatched_letter_untouched s key :
  isAltActive s = true -> String.length key = 1 ->
  pendingGroup s = None \/ Js.digit19 key = None ->
  lookupGroup s (Js.toLowerCase key) = None ->
  onKeydown key s = (s, false).
Proof.
  intros Ha Hlen Hd Hg. rewrite (onKeydown_letter s key Ha Hlen Hd).
  unfold lookupGroup in Hg. by destruct (assocGet _ _).
Qed.

(** C3, at an input where the code departs from it.  The session
    disambiguates between two elements bound to [o]; the key [1] is taken by
    the digit branch, which triggers the first element and returns the
    session to Idle, and the event's default handling is not prevented. *)
Theorem digit_key_default_not_prevented :
  let s := Sample.disambiguating in
  Disambiguating s [Sample.open1; Sample.open2] /\
  effects (onKeydown "1" s).1 = effects s ++ triggerEffects Sample.open1 /\
  Idle (onKeydown "1" s).1 /\
  (onKeydown "1" s).2 = false.
Proof. vm_compute. repeat split. Qed.

(** ** Colours *)

Lemma inline_colours_fixed k s n :
  In n (visibleHints (markMnemonics true k None s)) ->
  exists st, style n = Some st /\
    st_backgroundColor st = "#000" /\ st_color st = "#fff".
Proof.
  rewrite visibleHints_mark. intros (e & _ & Hn)%in_flat_map.
  destruct e as [key l]. unfold groupLabels in Hn.
  apply list_elem_of_In, list_elem_of_omap in Hn as (o & Ho & Hid).
  cbn in Hid. subst o.
  apply list_elem_of_lookup in Ho as (i & Hi).
  rewrite list_lookup_imap in Hi.
  destruct (deref (heap s) l !! i) as [el|]; [|done]. cbn in Hi.
  unfold makeLabel in Hi. destruct (_ && _); [done|].
  injection Hi as <-. cbn. eauto.
Qed.

(** C5, at an input where the code departs from it.  With [color] set to
    [red] and [textColor] to [blue], the injected rule carries both values,
    and every hint shown on modifier-down carries inline declarations that
    make its background [#000] and its text [#fff]. *)
Theorem hint_colours_ignore_config :
  let s := step (initMnemonics Sample.coloured Sample.pageTwo) (KeyDown "Alt") in
  color (config s) = "red" /\ textColor (config s) = "blue" /\
  mnemoStyle s = Some (mkStyle "red" "blue" "0.15s") /\
  visibleHints s <> [] /\
  Forall (fun n => effectiveBackground s n = Some "#000" /\
                   effectiveColor s n = Some "#fff") (visibleHints s).
Proof.
  vm_compute. repeat split; [discriminate|].
  repeat constructor.
Qed.

(** ** Concrete sessions *)

(** C1 as stated fails: two elements share the key [o], and the hints shown
    on modifier-down read O1, O2, S, not O, O, S. *)
Lemma armed_hints_not_single_letters :
  let s := initMnemonics Sample.defaults Sample.pageTwo in
  Idle s /\
  textContent <$> visibleHints (step s (KeyDown "Alt")) = ["O1"; "O2"; "S"] /\
  singleLetterHints s = ["O"; "O"; "S"] /\
  textContent <$> visibleHints (step s (KeyDown "Alt")) <> singleLetterHints s.
Proof. vm_compute. repeat split. discriminate. Qed.

(** C2 as stated fails in its last part: the session disambiguates on two
    elements, a rebuild adds a third, and the letter pressed again with the
    modifier still held resolves to all three. *)
Lemma letter_sees_rebuild_without_rearm :
  let s := Sample.disambiguating in
  Disambiguating s [Sample.open1; Sample.open2] /\
  isAltActive (run s [Mutation Sample.pageThree]) = true /\
  activeGroup (run s [Mutation Sample.pageThree; KeyDown "o"])
  = Some [Sample.open1; Sample.open2; Sample.open3] /\
  ~ staleUntilRearm s Sample.pageThree "o".
Proof. vm_compute. repeat split. discriminate. Qed.

Lemma armed_hints_witness :
  let s := initMnemonics Sample.defaults Sample.pageTwo in
  Idle s /\
  (Armed (step s (KeyDown "Alt")) /\
   textContent <$> visibleHints (step s (KeyDown "Alt"))
   = flat_map hintTexts (indexOf s)).
Proof.
  split; [split; reflexivity|].
  apply (armed_hints (initMnemonics Sample.defaults Sample.pageTwo)).
  split; reflexivity.
Defined.

Lemma sample_disambiguating :
  Disambiguating Sample.disambiguating [Sample.open1; Sample.open2].
Proof. split; reflexivity. Defined.

Lemma sample_reachable : Reachable Sample.disambiguating.
Proof. apply (Reachable_run _ [KeyDown "Alt"; KeyDown "o"]), reach_init. Defined.

Lemma group_frozen_letters_live_witness :
  Disambiguating Sample.disambiguating [Sample.open1; Sample.open2] /\
  observer Sample.disambiguating = true /\
  Disambiguating (run Sample.disambiguating [Mutation Sample.pageThree])
    [Sample.open1; Sample.open2].
Proof.
  split; [exact sample_disambiguating|]. split; [reflexivity|].
  apply (group_frozen_letters_live Sample.disambiguating
           [Sample.open1; Sample.open2] [] Sample.pageThree
           sample_disambiguating eq_refl).
Defined.

Lemma digit_resolves_in_group_witness :
  Disambiguating Sample.disambiguating [Sample.open1; Sample.open2] /\
  1 <= 2 <= 9 /\
  effects (onKeydown (digitKey 2) Sample.disambiguating).1
  = effects Sample.disambiguating ++ triggerEffects Sample.open2.
Proof.
  split; [exact sample_disambiguating|]. split; [lia|].
  apply (digit_resolves_in_group Sample.disambiguating
           [Sample.open1; Sample.open2] 2 sample_disambiguating).
  lia.
Defined.

Lemma cancel_returns_to_Idle_witness :
  Disambiguating Sample.disambiguating [Sample.open1; Sample.open2] /\
  Idle (step Sample.disambiguating (KeyDown "Escape")) /\
  Idle (step Sample.disambiguating (KeyUp "Alt")).
Proof.
  split; [exact sample_disambiguating|].
  pose proof (cancel_returns_to_Idle Sample.disambiguating
                [Sample.open1; Sample.open2]
                (or_intror sample_disambiguating)) as [[H1 _] [H2 _]].
  split; [exact H1 | exact H2].
Defined.

Lemma sample_rebuilt_reachable :
  Reachable (run Sample.disambiguating [Mutation Sample.pageThree]).
Proof. apply Reachable_run, sample_reachable. Defined.

Lemma sample_rebuilt_disambiguating :
  Disambiguating (run Sample.disambiguating [Mutation Sample.pageThree])
    [Sample.open1; Sample.open2].
Proof. split; reflexivity. Defined.

Lemma letter_while_disambiguating_witness :
  let s := run Sample.disambiguating [Mutation Sample.pageThree] in
  Reachable s /\ Disambiguating s [Sample.open1; Sample.open2] /\
  (String.length "O" = 1 /\ Js.digit19 "O" = None /\
   activeGroup (onKeydown "O" s).1
   = Some [Sample.open1; Sample.open2; Sample.open3] /\
   textContent <$> visibleHints (onKeydown "O" s).1 = ["O1"; "O2"; "O3"] /\
   anchors (visibleHints (onKeydown "O" s).1)
   = [Sample.open1; Sample.open2; Sample.open3]) /\
  (String.length "s" = 1 /\ Js.digit19 "s" = None /\
   effects (onKeydown "s" s).1 = effects s ++ triggerEffects Sample.save).
Proof.
  split; [exact sample_rebuilt_reachable|].
  split; [exact sample_rebuilt_disambiguating|]. split.
  - split; [reflexivity|]. split; [reflexivity|].
    destruct (letter_while_disambiguating
                (run Sample.disambiguating [Mutation Sample.pageThree])
                [Sample.open1; Sample.open2] "O"
                sample_rebuilt_reachable sample_rebuilt_disambiguating
                eq_refl eq_refl) as [_ Hgroup].
    destruct (Hgroup [Sample.open1; Sample.open2; Sample.open3] eq_refl
                (le_S _ _ (le_n 2))) as ([_ Hact] & _ & Htexts & Hanchors & _).
    split; [exact Hact|]. split; [|exact Hanchors].
    rewrite Htexts. reflexivity.
  - split; [reflexivity|]. split; [reflexivity|].
    apply (letter_while_disambiguating
             (run Sample.disambiguating [Mutation Sample.pageThree])
             [Sample.open1; Sample.open2] "s"
             sample_rebuilt_reachable sample_rebuilt_disambiguating
             eq_refl eq_refl).
    reflexivity.
Defined.

Lemma pendingGroup_implies_isAltActive_witness :
  Reachable Sample.disambiguating /\
  pendingGroup Sample.disambiguating = Some 0 /\
  isAltActive Sample.disambiguating = true.
Proof.
  split; [exact sample_reachable|]. split; [reflexivity|].
  apply (pendingGroup_implies_isAltActive Sample.disambiguating 0
           sample_reachable eq_refl).
Defined.

(** * Further properties of the code *)

(** ** What a scan files under a key *)

Lemma assocGet_addBinding k k' el idx :
  assocGet k (addBinding idx k' el)
  = if String.eqb k' k then Some (default [] (assocGet k idx) ++ [el])
    else assocGet k idx.
Proof.
  induction idx as [|[k0 g] r IH]; cbn [addBinding assocGet].
  - by destruct (String.eqb k' k).
  - destruct (String.eqb k0 k') eqn:E0; cbn [assocGet].
    + apply String.eqb_eq in E0. subst k0.
      by destruct (String.eqb k' k).
    + rewrite IH. destruct (String.eqb k' k) eqn:E1; [|done].
      apply String.eqb_eq in E1. subst k'. by rewrite E0.
Qed.

Lemma extendGroup_snoc o el g :
  extendGroup (Some (default [] o ++ [el])) g = extendGroup o (el :: g).
Proof.
  unfold extendGroup. cbn. rewrite <- app_assoc. cbn.
  by destruct o, g.
Qed.

Lemma assocGet_fold_indexStep a k els idx :
  k <> "" ->
  assocGet k (fold_left (indexStep a) els idx)
  = extendGroup (assocGet k idx) (List.filter (filedUnder a k) els).
Proof.
  intros Hk. revert idx.
  induction els as [|el els IH]; intros idx; cbn [fold_left List.filter].
  - unfold extendGroup. destruct (assocGet k idx); [|done].
    cbn. by rewrite app_nil_r.
  - rewrite IH. unfold indexStep, filedUnder, keyOf.
    destruct (getAttribute a el) as [v|]; cbn; [|done].
    destruct (Js.toLowerCase v) as [|c r] eqn:Ev; cbn [Js.truthy negb].
    + destruct (String.eqb "" k) eqn:E; [|done].
      apply String.eqb_eq in E. congruence.
    + cbn [default from_option id]. rewrite assocGet_addBinding.
      destruct (String.eqb (String c r) k); [|done].
      apply extendGroup_snoc.
Qed.

(** X1. After a scan, the array under a non-empty key holds exactly the
    tagged elements whose lower-cased attribute value is that key, in document
    order, repeated elements kept; a key no element has is not in the map. *)
Theorem scanDocument_groups (s : State) (k : string) :
  k <> "" ->
  let a := attr (config s) in
  lookupGroup (scanDocument s) k
  = match List.filter (filedUnder a k) (querySelectorAll a (document s)) with
    | [] => None
    | g => Some g
    end.
Proof.
  intros Hk a. rewrite lookupGroup_indexOf, scanDocument_index.
  unfold buildIndex. fold a. rewrite (assocGet_fold_indexStep a k _ [] Hk).
  cbn [assocGet]. unfold extendGroup.
  by destruct (List.filter _ _).
Qed.

Lemma scanDocument_groups_witness :
  "o" <> "" /\
  lookupGroup (scanDocument (initMnemonics Sample.defaults Sample.pageThree)) "o"
  = Some [Sample.open1; Sample.open2; Sample.open3].
Proof.
  split; [discriminate|].
  apply (scanDocument_groups
           (initMnemonics Sample.defaults Sample.pageThree) "o").
  discriminate.
Defined.

(** The empty key is never in the map. *)
Lemma assocGet_fold_indexStep_empty a els idx :
  assocGet "" (fold_left (indexStep a) els idx) = assocGet "" idx.
Proof.
  revert idx. induction els as [|el els IH]; intros idx; cbn [fold_left];
    [done|].
  rewrite IH. unfold indexStep.
  destruct (getAttribute a el) as [v|]; cbn; [|done].
  destruct (Js.toLowerCase v) as [|c r]; cbn [Js.truthy negb]; [done|].
  cbn [default from_option id]. by rewrite assocGet_addBinding.
Qed.

(** ** One hint per tagged element *)

Lemma addBinding_concat idx k el :
  concat ((addBinding idx k el).*2) ≡ₚ concat (idx.*2) ++ [el].
Proof.
  induction idx as [|[k0 g] r IH]; cbn [addBinding].
  - by rewrite fmap_cons.
  - destruct (String.eqb k0 k); rewrite !fmap_cons; cbn [snd concat].
    + rewrite <- !app_assoc. apply Permutation_app_head.
      apply Permutation_app_comm.
    + rewrite IH. by rewrite app_assoc.
Qed.

Lemma buildIndex_concat a els idx :
  concat ((fold_left (indexStep a) els idx).*2)
  ≡ₚ concat (idx.*2) ++ List.filter (fun el => Js.truthy (keyOf a el)) els.
Proof.
  revert idx. induction els as [|el els IH]; intros idx;
    cbn [fold_left List.filter].
  - by rewrite app_nil_r.
  - rewrite IH. unfold indexStep, keyOf.
    destruct (Js.truthy (Js.toLowerCase <$> getAttribute a el)); cbn [negb].
    + rewrite addBinding_concat, <- app_assoc. done.
    + done.
Qed.

Lemma anchors_groupLabels h key l :
  anchors (groupLabels None None h (key, l)) = deref h l.
Proof.
  rewrite groupLabels_all. unfold anchors.
  generalize (labelText (deref h l) key). intros f.
  revert f. induction (deref h l) as [|el g IH]; intros f; [done|].
  cbn. f_equal. apply IH.
Qed.

Lemma anchors_app l1 l2 : anchors (l1 ++ l2) = anchors l1 ++ anchors l2.
Proof. unfold anchors. apply omap_app. Qed.

Lemma anchors_all_hints s :
  anchors (flat_map (groupLabels None None (heap s)) (accessMap s))
  = concat ((indexOf s).*2).
Proof.
  unfold indexOf. induction (accessMap s) as [|[k l] r IH]; [done|].
  rewrite !fmap_cons. cbn [flat_map snd fst concat].
  by rewrite anchors_app, anchors_groupLabels, IH.
Qed.

(** X2. When the modifier goes down right after a scan, the hints shown are
    placed by exactly the tagged elements with a non-empty attribute value,
    one hint per element. *)
Theorem one_hint_per_tagged_element (s : State) :
  isAltActive s = false ->
  let a := attr (config s) in
  anchors (visibleHints (step (scanDocument s) (KeyDown "Alt")))
  ≡ₚ List.filter (fun el => Js.truthy (keyOf a el))
       (querySelectorAll a (document s)).
Proof.
  intros Ha a. cbn [step].
  assert (Ha' : isAltActive (scanDocument s) = false)
    by (by rewrite scanDocument_fields).
  rewrite (onKeydown_Alt_idle _ Ha'). cbn [fst].
  rewrite visibleHints_mark. cbn [heap accessMap set_isAltActive].
  rewrite anchors_all_hints, scanDocument_index. unfold buildIndex. fold a.
  by rewrite buildIndex_concat.
Qed.

Lemma one_hint_per_tagged_element_witness :
  isAltActive (initMnemonics Sample.defaults Sample.pageThree) = false /\
  length (anchors (visibleHints
            (step (scanDocument (initMnemonics Sample.defaults Sample.pageThree))
                  (KeyDown "Alt")))) = 4.
Proof.
  split; [reflexivity|].
  rewrite (one_hint_per_tagged_element
             (initMnemonics Sample.defaults Sample.pageThree) eq_refl).
  reflexivity.
Defined.

(** ** Which keys the listener reads *)

(** X3. Letter keys are compared in lower case: two one-character keys that
    are not digits 1-9 and have the same lower-cased form are handled alike. *)
Theorem keys_compared_in_lower_case (s : State) (key1 key2 : string) :
  String.length key1 = 1 -> String.length key2 = 1 ->
  Js.digit19 key1 = None -> Js.digit19 key2 = None ->
  Js.toLowerCase key1 = Js.toLowerCase key2 ->
  onKeydown key1 s = onKeydown key2 s.
Proof.
  intros L1 L2 D1 D2 E.
  destruct (single_char_not_named _ L1) as [A1 B1].
  destruct (single_char_not_named _ L2) as [A2 B2].
  unfold onKeydown, keydownWith.
  by rewrite A1, B1, A2, B2, D1, D2, L1, L2, E.
Qed.

Lemma keys_compared_in_lower_case_witness :
  onKeydown "S" Sample.disambiguating = onKeydown "s" Sample.disambiguating.
Proof.
  apply (keys_compared_in_lower_case Sample.disambiguating "S" "s");
    reflexivity.
Defined.

Lemma digit19_None_long key : String.length key <> 1 -> Js.digit19 key = None.
Proof. destruct key as [|c [|c' r]]; cbn; done. Qed.

Lemma onKeydown_idle_other s key :
  isAltActive s = false -> pendingGroup s = None ->
  key <> "Escape" -> key <> "Alt" ->
  onKeydown key s = (s, false).
Proof.
  intros Ha Hp H1%String.eqb_neq H2%String.eqb_neq.
  unfold onKeydown, keydownWith. rewrite H1, H2, Hp, Ha. done.
Qed.

(** X4. A key other than Escape and Alt is ignored, and keeps its default
    handling, when its name is not a single character (navigation and
    function keys, Enter, Shift) and also whenever the session is Idle. *)
Theorem other_keys_ignored (s : State) (key : string) :
  key <> "Escape" -> key <> "Alt" ->
  String.length key <> 1 \/ Idle s ->
  onKeydown key s = (s, false).
Proof.
  intros H1 H2 [Hlen | [Ha Hp]].
  - apply String.eqb_neq in H1, H2.
    unfold onKeydown, keydownWith.
    rewrite H1, H2, (digit19_None_long _ Hlen).
    apply Nat.eqb_neq in Hlen. rewrite Hlen, andb_false_r.
    by destruct (pendingGroup s).
  - by apply onKeydown_idle_other.
Qed.

Lemma other_keys_ignored_witness :
  onKeydown "ArrowDown" Sample.disambiguating = (Sample.disambiguating, false).
Proof.
  apply (other_keys_ignored Sample.disambiguating "ArrowDown");
    [discriminate | discriminate | left; cbn; lia].
Defined.

Lemma alt_sets_flag s : isAltActive (step s (KeyDown "Alt")) = true.
Proof.
  cbn [step]. destruct (isAltActive s) eqn:Ha.
  - unfold onKeydown, keydownWith. cbn. by rewrite Ha.
  - rewrite (onKeydown_Alt_idle s Ha). cbn [fst].
    by destruct (mark_show_fields None (set_isAltActive true s)) as (-> & _).
Qed.

Lemma alt_while_held s :
  isAltActive s = true -> onKeydown "Alt" s = (s, true).
Proof. intros Ha. unfold onKeydown, keydownWith. cbn. by rewrite Ha. Qed.

Lemma alt_repeats_while_held s n :
  isAltActive s = true -> run s (replicate n (KeyDown "Alt")) = s.
Proof.
  intros Ha. induction n as [|n IH]; [done|].
  cbn [replicate run fold_left step]. rewrite (alt_while_held s Ha). apply IH.
Qed.

(** X5. Auto-repeat of the held modifier changes nothing: any number of
    further Alt key-downs leaves the state the first one produced. *)
Theorem alt_autorepeat (s : State) (n : nat) :
  run s (replicate (S n) (KeyDown "Alt")) = step s (KeyDown "Alt").
Proof.
  cbn [replicate run fold_left].
  apply (alt_repeats_while_held (step s (KeyDown "Alt")) n), alt_sets_flag.
Qed.

(** X6. The digit test accepts exactly the nine one-character keys 1 to 9,
    with their values; 0 and longer names are not digits to the listener. *)
Theorem digit19_exact (key : string) (d : nat) :
  Js.digit19 key = Some d <-> 1 <= d <= 9 /\ key = digitKey d.
Proof.
  split.
  - destruct key as [|c [|c' r]]; [done| |done].
    unfold Js.digit19, digitKey.
    destruct (Nat.leb_spec 49 (nat_of_ascii c)); [|done].
    destruct (Nat.leb_spec (nat_of_ascii c) 57); [|done].
    cbn [andb]. intros [= <-]. split; [lia|].
    replace (48 + (nat_of_ascii c - 48)) with (nat_of_ascii c) by lia.
    by rewrite ascii_nat_embedding.
  - intros [Hd ->]. by apply digit19_digitKey.
Qed.

(** ** Default handling *)

(** X7. The listener prevents a key's default handling in exactly two
    cases: the key is Alt, or the letter branch takes the key and the index
    holds an element for its lower-cased form. *)
Theorem default_prevented_iff (s : State) (key : string) :
  (onKeydown key s).2 = true <->
  key = "Alt" \/
  (isAltActive s = true /\ String.length key = 1 /\
   (pendingGroup s = None \/ Js.digit19 key = None) /\
   exists el g, lookupGroup s (Js.toLowerCase key) = Some (el :: g)).
Proof.
  split.
  - destruct (String.eqb key "Alt") eqn:EA.
    { apply String.eqb_eq in EA. by left. }
    intros H. right.
    unfold onKeydown, keydownWith in H. rewrite EA in H.
    destruct (String.eqb key "Escape"); [done|].
    assert (Hd : pendingGroup s = None \/ Js.digit19 key = None).
    { destruct (pendingGroup s); [|by left].
      destruct (Js.digit19 key); [done | by right]. }
    assert (H' : (if isAltActive s && (String.length key =? 1)
                  then match assocGet (Js.toLowerCase key) (accessMap s) with
                       | Some l =>
                           match deref (heap s) l with
                           | [] => (s, false)
                           | [el] => (resetMnemonics (triggerElement el s), true)
                           | _ => (markMnemonics true (Some (Js.toLowerCase key))
                                     None (set_pendingGroup (Some l) s), true)
                           end
                       | None => (s, false)
                       end
                  else (s, false)).2 = true).
    { destruct (pendingGroup s); [|done]. by destruct (Js.digit19 key). }
    clear H. destruct (isAltActive s); [|done].
    destruct (Nat.eqb_spec (String.length key) 1) as [Hlen|]; [|done].
    cbn [andb] in H'. repeat split; [done | done |].
    unfold lookupGroup.
    destruct (assocGet (Js.toLowerCase key) (accessMap s)) as [l|]; [|done].
    cbn. destruct (deref (heap s) l) as [|el g]; [done | eauto].
  - intros [-> | (Ha & Hlen & Hd & el & g & Hg)].
    + destruct (isAltActive s) eqn:Ha.
      * by rewrite alt_while_held.
      * by rewrite onKeydown_Alt_idle.
    + by rewrite (letter_branch_prevents s key Ha Hlen Hd), Hg.
Qed.

(** ** Letters while armed *)

Lemma letter_group_hints s key g :
  NoDup ((accessMap s).*1) ->
  isAltActive s = true -> String.length key = 1 ->
  pendingGroup s = None \/ Js.digit19 key = None ->
  lookupGroup s (Js.toLowerCase key) = Some g -> 2 <= length g ->
  let s' := (onKeydown key s).1 in
  Disambiguating s' g /\ effects s' = effects s /\
  visibleHints s' = numberedHints (Js.toLowerCase key) g /\
  (onKeydown key s).2 = true.
Proof.
  intros Hnd Ha Hlen Hd Hg H2 s'. subst s'.
  destruct (letter_group s key g Ha Hlen Hd Hg H2) as (l & El & Hl & ->).
  cbn [fst snd].
  destruct (mark_show_fields (Some (Js.toLowerCase key))
              (set_pendingGroup (Some l) s)) as (E1 & _ & E3 & _).
  split; [split; [by rewrite E1 | by rewrite activeGroup_mark]|].
  split; [by rewrite E3|]. split; [|done].
  rewrite visibleHints_mark. cbn [heap accessMap set_pendingGroup].
  assert (Hk : Js.toLowerCase key <> "").
  { intros E. apply (proj1 (toLowerCase_empty key)) in E.
    rewrite E in Hlen. discriminate Hlen. }
  rewrite (flat_map_ext _
             (fun e => if String.eqb e.1 (Js.toLowerCase key)
                       then groupLabels None None (heap s) e else [])).
  2:{ intros [k' l']. rewrite (groupLabels_active _ _ _ _ Hk).
      cbn [fst]. destruct (String.eqb k' _); [|done].
      by rewrite groupLabels_all. }
  rewrite (flat_map_active _ l _ _ Hnd El).
  rewrite groupLabels_all, (deref_lookup _ _ _ Hl).
  unfold numberedHints. apply imap_ext. intros i el _. cbn. f_equal.
  by apply labelText_cases.
Qed.

(** X8. While armed, a one-character key (a digit included, since no group
    is pending) whose lower-cased form has exactly one bound element triggers
    that element, returns the session to Idle with no visible hint, and has
    its default handling prevented. *)
Theorem armed_letter_single (s : State) (key : string) (el : HTMLElement) :
  Armed s -> String.length key = 1 ->
  lookupGroup s (Js.toLowerCase key) = Some [el] ->
  let r := onKeydown key s in
  effects r.1 = effects s ++ triggerEffects el /\
  Idle r.1 /\ visibleHints r.1 = [] /\ r.2 = true.
Proof.
  intros [Ha Hp] Hlen Hg r. subst r.
  rewrite (letter_single s key el Ha Hlen (or_introl Hp) Hg). cbn [fst snd].
  rewrite reset_effects.
  split; [done|]. split; [apply reset_Idle|].
  split; [apply visibleHints_reset | done].
Qed.

Lemma armed_letter_single_witness :
  let s := step (initMnemonics Sample.defaults Sample.pageTwo) (KeyDown "Alt") in
  Armed s /\ String.length "S" = 1 /\
  effects (onKeydown "S" s).1 = effects s ++ triggerEffects Sample.save.
Proof.
  split; [split; reflexivity|]. split; [reflexivity|].
  apply (armed_letter_single
           (step (initMnemonics Sample.defaults Sample.pageTwo) (KeyDown "Alt"))
           "S" Sample.save); [split; reflexivity | reflexivity | reflexivity].
Defined.

(** X9. While armed, a one-character key whose lower-cased form has two or
    more bound elements starts disambiguation on exactly that array: it
    becomes the pending group, nothing is triggered, the visible hints are
    that group's hints numbered from 1, and default handling is prevented. *)
Theorem armed_letter_group (s : State) (key : string) (g : list HTMLElement) :
  Reachable s -> Armed s -> String.length key = 1 ->
  lookupGroup s (Js.toLowerCase key) = Some g -> 2 <= length g ->
  let r := onKeydown key s in
  Disambiguating r.1 g /\ effects r.1 = effects s /\
  visibleHints r.1 = numberedHints (Js.toLowerCase key) g /\ r.2 = true.
Proof.
  intros Hr [Ha Hp] Hlen Hg H2.
  exact (letter_group_hints s key g (Reachable_keys s Hr) Ha Hlen
           (or_introl Hp) Hg H2).
Qed.

Lemma sample_armed_reachable :
  Reachable (step (initMnemonics Sample.defaults Sample.pageTwo) (KeyDown "Alt")).
Proof. apply reach_step, reach_init. Defined.

Lemma armed_letter_group_witness :
  let s := step (initMnemonics Sample.defaults Sample.pageTwo) (KeyDown "Alt") in
  Reachable s /\ Armed s /\ String.length "O" = 1 /\
  textContent <$> visibleHints (onKeydown "O" s).1 = ["O1"; "O2"].
Proof.
  split; [exact sample_armed_reachable|]. split; [split; reflexivity|].
  split; [reflexivity|].
  destruct (armed_letter_group
              (step (initMnemonics Sample.defaults Sample.pageTwo) (KeyDown "Alt"))
              "O" [Sample.open1; Sample.open2] sample_armed_reachable
              (conj eq_refl eq_refl) eq_refl eq_refl (le_n 2))
    as (_ & _ & -> & _).
  reflexivity.
Defined.

(** X10. While the modifier is held, a one-character key that the digit
    branch does not take and whose lower-cased form has no bound element
    changes nothing and keeps its default handling. *)
Theorem unbound_letter_ignored (s : State) (key : string) :
  isAltActive s = true -> String.length key = 1 ->
  pendingGroup s = None \/ Js.digit19 key = None ->
  lookupGroup s (Js.toLowerCase key) = None ->
  onKeydown key s = (s, false).
Proof. apply unmatched_letter_untouched. Qed.

Lemma unbound_letter_ignored_witness :
  onKeydown "x" Sample.disambiguating = (Sample.disambiguating, false).
Proof.
  apply (unbound_letter_ignored Sample.disambiguating "x");
    [reflexivity | reflexivity | right; reflexivity | reflexivity].
Defined.

(** ** The outcomes of a key-down *)

Lemma onKeydown_inactive s key :
  String.eqb key "Escape" = false -> String.eqb key "Alt" = false ->
  pendingGroup s = None \/ Js.digit19 key = None ->
  isAltActive s && (String.length key =? 1) = false ->
  onKeydown key s = (s, false).
Proof.
  intros E1 E2 Hd Hc. unfold onKeydown, keydownWith. rewrite E1, E2, Hc.
  destruct Hd as [-> | ->]; [done|]. by destruct (pendingGroup s).
Qed.

Lemma deref_cons h l e g : deref h l = e :: g -> h !! l = Some (e :: g).
Proof. unfold deref. destruct (h !! l); cbn; [congruence | done]. Qed.

(** Every run of the [keydown] listener ends in one of five ways. *)
Lemma onKeydown_cases key s :
  let r := (onKeydown key s).1 in
  r = s \/
  r = resetMnemonics s \/
  (exists el, r = resetMnemonics (log (triggerEffects el) s)) \/
  (key = "Alt" /\ isAltActive s = false /\
   r = markMnemonics true None None (set_isAltActive true s)) \/
  (exists l e1 e2 g,
     isAltActive s = true /\ String.length key = 1 /\
     (pendingGroup s = None \/ Js.digit19 key = None) /\
     assocGet (Js.toLowerCase key) (accessMap s) = Some l /\
     heap s !! l = Some (e1 :: e2 :: g) /\
     r = markMnemonics true (Some (Js.toLowerCase key)) None
           (set_pendingGroup (Some l) s)).
Proof.
  cbn zeta.
  destruct (String.eqb key "Escape") eqn:E1.
  { right; left. unfold onKeydown, keydownWith. by rewrite E1. }
  destruct (String.eqb key "Alt") eqn:E2.
  { apply String.eqb_eq in E2. subst key.
    destruct (isAltActive s) eqn:Ha.
    - left. by rewrite alt_while_held.
    - do 3 right. left. by rewrite onKeydown_Alt_idle. }
  assert (Hletter : pendingGroup s = None \/ Js.digit19 key = None ->
            let r := (onKeydown key s).1 in
            r = s \/
            (exists el, r = resetMnemonics (log (triggerEffects el) s)) \/
            (exists l e1 e2 g,
               isAltActive s = true /\ String.length key = 1 /\
               (pendingGroup s = None \/ Js.digit19 key = None) /\
               assocGet (Js.toLowerCase key) (accessMap s) = Some l /\
               heap s !! l = Some (e1 :: e2 :: g) /\
               r = markMnemonics true (Some (Js.toLowerCase key)) None
                     (set_pendingGroup (Some l) s))).
  { intros Hd. cbn zeta.
    destruct (isAltActive s && (String.length key =? 1)) eqn:Hc.
    - apply andb_prop in Hc as [Ha Hlen]. apply Nat.eqb_eq in Hlen.
      rewrite (onKeydown_letter s key Ha Hlen Hd).
      destruct (assocGet (Js.toLowerCase key) (accessMap s)) as [l|] eqn:El;
        [|by left].
      destruct (deref (heap s) l) as [|e1 [|e2 g]] eqn:Dl; cbn [fst].
      + by left.
      + right; left. exists e1. by rewrite triggerElement_log.
      + do 2 right. exists l, e1, e2, g.
        split; [done|]. split; [done|]. split; [done|]. split; [done|].
        split; [by apply deref_cons | done].
    - left. by rewrite (onKeydown_inactive s key E1 E2 Hd Hc). }
  destruct (pendingGroup s) as [l|] eqn:Hp.
  - destruct (Js.digit19 key) as [d|] eqn:Hd.
    + rewrite (onKeydown_digit s l key d Hp Hd). cbn [fst].
      destruct (deref (heap s) l !! (d - 1)) as [el|].
      * do 2 right; left. exists el. by rewrite triggerElement_log.
      * by right; left.
    + destruct (Hletter (or_intror eq_refl)) as [H|[H|H]]; auto 6.
  - destruct (Hletter (or_introl eq_refl)) as [H|[H|H]]; auto 6.
Qed.

(** ** Triggers *)

(** X11. An event triggers at most one element, and a trigger always ends
    the session: either the log of focus changes and sent events is as
    before, or one element's focus and Enter press and release were added and
    the session is Idle with no visible hint. *)
Theorem at_most_one_trigger (s : State) (e : Event) :
  effects (step s e) = effects s \/
  exists el, effects (step s e) = effects s ++ triggerEffects el /\
             Idle (step s e) /\ visibleHints (step s e) = [].
Proof.
  destruct e as [key|key|doc|i]; cbn [step].
  - destruct (onKeydown_cases key s)
      as [->|[->|[(el & ->)|[(_ & _ & ->)|(l & e1 & e2 & g & _ & _ & _ & _ & _ & ->)]]]].
    + by left.
    + left. apply reset_effects.
    + right. exists el. rewrite reset_effects.
      split; [done | split; [apply reset_Idle | apply visibleHints_reset]].
    + left. by destruct (mark_show_fields None (set_isAltActive true s))
        as (_ & _ & -> & _).
    + left. by destruct (mark_show_fields (Some (Js.toLowerCase key))
                           (set_pendingGroup (Some l) s)) as (_ & _ & -> & _).
  - left. unfold onKeyup. destruct (String.eqb key "Alt"); [|done].
    apply reset_effects.
  - left. by destruct (onMutation_flags doc s) as (_ & _ & -> & _).
  - left. unfold onAnimationEnd. by repeat case_match.
Qed.

(** A trigger comes from a key-down, through the digit branch with a group
    pending or through the letter branch with the modifier held. *)
Lemma at_most_one_trigger_cases s e :
  effects (step s e) = effects s \/
  exists el, effects (step s e) = effects s ++ triggerEffects el /\
    exists key, e = KeyDown key /\
      ((exists l, pendingGroup s = Some l /\ Js.digit19 key <> None) \/
       (isAltActive s = true /\ String.length key = 1)).
Proof.
  destruct e as [key|key|doc|i]; cbn [step].
  - destruct (String.eqb key "Escape") eqn:E1.
    { left. unfold onKeydown, keydownWith. rewrite E1. apply reset_effects. }
    destruct (String.eqb key "Alt") eqn:E2.
    { left. apply String.eqb_eq in E2. subst key.
      destruct (isAltActive s) eqn:Ha.
      - by rewrite alt_while_held.
      - rewrite onKeydown_Alt_idle by done. cbn [fst].
        by destruct (mark_show_fields None (set_isAltActive true s))
          as (_ & _ & -> & _). }
    destruct (pendingGroup s) as [l|] eqn:Hp, (Js.digit19 key) as [d|] eqn:Hd.
    1:{ rewrite (onKeydown_digit s l key d Hp Hd). cbn [fst].
        rewrite reset_effects.
        destruct (deref (heap s) l !! (d - 1)) as [el|]; [|by left].
        right. exists el. rewrite triggerElement_log.
        split; [done|]. exists key. split; [done|]. left. exists l.
        split; [done|]. by rewrite Hd. }
    all: destruct (isAltActive s && (String.length key =? 1)) eqn:Hc;
      [ apply andb_prop in Hc as [Ha Hlen]; apply Nat.eqb_eq in Hlen
      | left; rewrite (onKeydown_inactive s key E1 E2) by (rewrite ?Hp, ?Hd; auto);
        done ].
    all: rewrite (onKeydown_letter s key Ha Hlen) by (rewrite ?Hp, ?Hd; auto).
    all: destruct (assocGet (Js.toLowerCase key) (accessMap s)) as [l'|];
      [|by left].
    all: destruct (deref (heap s) l') as [|e1 [|e2 g]]; cbn [fst];
      [ by left
      | right; exists e1; rewrite triggerElement_log, reset_effects;
        split; [done|]; exists key; split; [done|]; by right
      | left;
        by destruct (mark_show_fields (Some (Js.toLowerCase key))
                       (set_pendingGroup (Some l') s)) as (_ & _ & -> & _) ].
  - left. unfold onKeyup. destruct (String.eqb key "Alt"); [|done].
    apply reset_effects.
  - left. by destruct (onMutation_flags doc s) as (_ & _ & -> & _).
  - left. unfold onAnimationEnd. by repeat case_match.
Qed.

Lemma Reachable_groupNeedsModifier s : Reachable s -> groupNeedsModifier s.
Proof.
  induction 1 as [cfg doc|s e _ IH].
  - apply init_groupNeedsModifier.
  - by apply step_groupNeedsModifier.
Qed.

(** X12. Nothing is triggered while the modifier is not recorded as held:
    in a reachable state with [isAltActive] false, no event adds to the log
    of focus changes and sent events. *)
Theorem no_trigger_without_modifier (s : State) (e : Event) :
  Reachable s -> isAltActive s = false -> effects (step s e) = effects s.
Proof.
  intros Hr Ha.
  assert (Hp : pendingGroup s = None).
  { pose proof (Reachable_groupNeedsModifier s Hr) as H.
    unfold groupNeedsModifier in H.
    destruct (pendingGroup s) eqn:E; [|done].
    rewrite H in Ha by done. done. }
  destruct (at_most_one_trigger_cases s e) as [H|(el & He & Hk)]; [done|].
  exfalso. destruct Hk as (key & -> & Hc).
  destruct Hc as [(l & Hl & _) | (Ha' & _)]; congruence.
Qed.

Lemma no_trigger_without_modifier_witness :
  let s := initMnemonics Sample.defaults Sample.pageTwo in
  Reachable s /\ isAltActive s = false /\
  effects (step s (KeyDown "s")) = effects s.
Proof.
  split; [apply reach_init|]. split; [reflexivity|].
  apply (no_trigger_without_modifier
           (initMnemonics Sample.defaults Sample.pageTwo) (KeyDown "s")
           (reach_init _ _) eq_refl).
Defined.

(** ** The life of a hint span *)

Lemma labels_reset s : labels (resetMnemonics s) = fadeOut <$> labels s.
Proof.
  unfold resetMnemonics, markMnemonics, ensureMnemoStyles. cbn.
  by destruct (mnemoStyle s).
Qed.

Lemma new_hints_inline k h m n :
  In n (flat_map (groupLabels k None h) m) ->
  exists t el, n = inlineHint t el.
Proof.
  intros (e & _ & Hn)%in_flat_map. destruct e as [key l].
  unfold groupLabels in Hn.
  apply list_elem_of_In, list_elem_of_omap in Hn as (o & Ho & Hid).
  cbn in Hid. subst o.
  apply list_elem_of_lookup in Ho as (i & Hi).
  rewrite list_lookup_imap in Hi.
  destruct (deref h l !! i) as [el|]; [|done]. cbn in Hi.
  unfold makeLabel in Hi. destruct (_ && _); [done|].
  injection Hi as <-. eauto.
Qed.

Lemma removal_fadeOut ls :
  Forall (fun n => removeOnAnimationEnd n = true -> exiting n = true)
    (fadeOut <$> ls).
Proof.
  apply Forall_fmap, Forall_true. intros n _. cbn. apply exiting_fadeOut.
Qed.

Lemma removal_mark k s :
  removalOnlyWhenExiting (markMnemonics true k None s).
Proof.
  unfold removalOnlyWhenExiting.
  destruct (mark_show_fields k s) as (_ & _ & _ & _ & _ & _ & _ & _ & ->).
  apply Forall_app. split; [apply removal_fadeOut|].
  apply List.Forall_forall. intros n Hn.
  destruct (new_hints_inline _ _ _ _ Hn) as (t & el & ->). by cbn.
Qed.

Lemma removal_reset s : removalOnlyWhenExiting (resetMnemonics s).
Proof.
  unfold removalOnlyWhenExiting. rewrite labels_reset. apply removal_fadeOut.
Qed.

Lemma step_removal s e :
  removalOnlyWhenExiting s -> removalOnlyWhenExiting (step s e).
Proof.
  intros H. destruct e as [key|key|doc|i]; cbn [step].
  - destruct (onKeydown_cases key s)
      as [->|[->|[(el & ->)|[(_ & _ & ->)|(l & e1 & e2 & g & _ & _ & _ & _ & _ & ->)]]]];
      [done | apply removal_reset | apply removal_reset
      | apply removal_mark | apply removal_mark].
  - unfold onKeyup. destruct (String.eqb key "Alt"); [|done].
    apply removal_reset.
  - unfold onMutation. destruct (observer _); [|done].
    unfold removalOnlyWhenExiting. by rewrite scanDocument_fields.
  - unfold onAnimationEnd. destruct (labels s !! i) as [n|]; [|done].
    destruct (removeOnAnimationEnd n); [|done].
    unfold removalOnlyWhenExiting. cbn [labels set_labels].
    by apply Forall_delete.
Qed.

Lemma Reachable_removal s : Reachable s -> removalOnlyWhenExiting s.
Proof.
  induction 1 as [cfg doc|s e _ IH].
  - unfold removalOnlyWhenExiting, initMnemonics, setupObserver.
    cbn [labels set_observer]. rewrite scanDocument_fields. constructor.
  - by apply step_removal.
Qed.

Lemma filter_delete_rejected {A} (P : A -> bool) (l : list A) i x :
  l !! i = Some x -> P x = false ->
  List.filter P (delete i l) = List.filter P l.
Proof.
  revert i. induction l as [|y l IH]; intros [|i] Hi Hx; try done.
  - injection Hi as ->. change (delete 0 (x :: l)) with l.
    cbn [List.filter]. by rewrite Hx.
  - change (delete (S i) (y :: l)) with (y :: delete i l).
    cbn [List.filter]. by rewrite (IH i Hi Hx).
Qed.

(** X13. The end of an animation never takes a visible hint away: in a
    reachable state only spans that are already fading out carry the removal
    listener, so the hints that are not fading out are the same before and
    after. *)
Theorem animation_end_keeps_visible_hints (s : State) (i : nat) :
  Reachable s ->
  visibleHints (step s (AnimationEnd i)) = visibleHints s.
Proof.
  intros Hr. pose proof (Reachable_removal s Hr) as Hinv.
  cbn [step]. unfold onAnimationEnd.
  destruct (labels s !! i) as [n|] eqn:Hi; [|done].
  destruct (removeOnAnimationEnd n) eqn:Hn; [|done].
  unfold visibleHints. cbn [labels set_labels].
  apply (filter_delete_rejected _ _ i n Hi).
  unfold removalOnlyWhenExiting in Hinv.
  rewrite Forall_lookup in Hinv. by rewrite (Hinv i n Hi Hn).
Qed.

Lemma animation_end_keeps_visible_hints_witness :
  Reachable Sample.disambiguating /\
  length (visibleHints (step Sample.disambiguating (AnimationEnd 0))) = 2.
Proof.
  split; [exact sample_reachable|].
  rewrite (animation_end_keeps_visible_hints Sample.disambiguating 0
             sample_reachable).
  reflexivity.
Defined.

Lemma drain_labels n :
  forall s, length (labels s) = n ->
    Forall (fun l => removeOnAnimationEnd l = true) (labels s) ->
    labels (run s (replicate n (AnimationEnd 0))) = [].
Proof.
  induction n as [|n IH]; intros s Hlen Hall.
  - cbn. destruct (labels s); [done | discriminate Hlen].
  - destruct (labels s) as [|l ls] eqn:El; [discriminate Hlen|].
    cbn [replicate run fold_left step]. unfold onAnimationEnd.
    rewrite El. cbn [lookup list_lookup].
    apply Forall_cons in Hall as [-> Hls]. cbn [delete list_delete].
    apply IH; cbn [labels set_labels]; [by injection Hlen | done].
Qed.

(** X14. Cancelling leaves no span behind: after Escape, once the animation
    of each span in the document has ended, no hint span remains. *)
Theorem spans_removed_after_cancel (s : State) :
  labels (run s (KeyDown "Escape"
                   :: replicate (length (labels s)) (AnimationEnd 0))) = [].
Proof.
  cbn [run fold_left step].
  change (onKeydown "Escape" s).1 with (resetMnemonics s).
  apply (drain_labels (length (labels s)) (resetMnemonics s)).
  - by rewrite labels_reset, length_fmap.
  - rewrite labels_reset. apply Forall_fmap, Forall_true. intros n.
    reflexivity.
Qed.

(** ** Rendering and resetting twice *)

Lemma classAdd_twice c cl : classAdd c (classAdd c cl) = classAdd c cl.
Proof.
  unfold classAdd at 2. destruct (existsb (String.eqb c) cl) eqn:E.
  - unfold classAdd. by rewrite E.
  - unfold classAdd. rewrite existsb_app, E. cbn [existsb orb].
    by rewrite String.eqb_refl.
Qed.

Lemma fadeOut_twice n : fadeOut (fadeOut n) = fadeOut n.
Proof. unfold fadeOut. cbn. by rewrite classAdd_twice. Qed.

(** What a reset leaves, field by field. *)
Lemma reset_record s :
  resetMnemonics s
  = mkState false (config s) (accessMap s) (observer s) None (heap s)
      (document s) (fadeOut <$> labels s)
      (Some (default (mkStyle (color (config s)) (textColor (config s))
                              (animationDuration (config s)))
                     (mnemoStyle s)))
      (effects s).
Proof.
  destruct s as [a c m o p h d ls st ef]. by destruct st.
Qed.

Lemma reset_twice s : resetMnemonics (resetMnemonics s) = resetMnemonics s.
Proof.
  rewrite (reset_record (resetMnemonics s)). rewrite !(reset_record s).
  cbn [config accessMap observer heap document labels mnemoStyle effects].
  f_equal.
  rewrite <- list_fmap_compose. apply list_fmap_ext.
  intros i n _. apply fadeOut_twice.
Qed.

(** X15. Resetting is idempotent: a second [resetMnemonics] (Escape pressed
    again, or the modifier released after Escape) leaves the state exactly as
    the first one did. *)
Theorem reset_idempotent (s : State) :
  run s [KeyDown "Escape"; KeyDown "Escape"] = run s [KeyDown "Escape"] /\
  run s [KeyDown "Escape"; KeyUp "Alt"] = run s [KeyDown "Escape"] /\
  run s [KeyUp "Alt"; KeyDown "Escape"] = run s [KeyUp "Alt"].
Proof. repeat split; apply reset_twice. Qed.

(** X16. Rendering does not pile up live hints: rendering a second time over
    the same index shows the same visible hints as rendering once, the spans
    of the first rendering being marked to fade out. *)
Theorem render_twice (k : option string) (s : State) :
  visibleHints (markMnemonics true k None (markMnemonics true k None s))
  = visibleHints (markMnemonics true k None s).
Proof.
  rewrite !visibleHints_mark.
  by destruct (mark_show_fields k s) as (_ & _ & _ & -> & -> & _).
Qed.

(** ** The listener run twice on one event *)

(** X17. Running the [keydown] listener a second time on the same key, as
    happens when the listeners have been registered twice, changes neither
    the modifier flag, nor the pending group, nor what was triggered, nor the
    visible hints, provided the key is not a digit 1-9 pressed with no group
    pending. *)
Theorem keydown_twice (s : State) (key : string) :
  Js.digit19 key = None \/ pendingGroup s <> None ->
  let r1 := (onKeydown key s).1 in
  let r2 := (onKeydown key r1).1 in
  isAltActive r2 = isAltActive r1 /\ activeGroup r2 = activeGroup r1 /\
  effects r2 = effects r1 /\ visibleHints r2 = visibleHints r1.
Proof.
  intros H. cbn zeta.
  destruct (String.eqb key "Escape") eqn:E1.
  { apply String.eqb_eq in E1. subst key.
    change (onKeydown "Escape" s).1 with (resetMnemonics s).
    change (onKeydown "Escape" (resetMnemonics s)).1
      with (resetMnemonics (resetMnemonics s)).
    by rewrite reset_twice. }
  destruct (String.eqb key "Alt") eqn:E2.
  { apply String.eqb_eq in E2. subst key.
    pose proof (alt_sets_flag s) as Ha. cbn [step] in Ha.
    by rewrite (alt_while_held _ Ha). }
  assert (Hidle : forall r, Idle r -> (onKeydown key r).1 = r).
  { intros r [Ha Hp]. apply String.eqb_neq in E1, E2.
    by rewrite (onKeydown_idle_other r key Ha Hp E1 E2). }
  destruct (onKeydown_cases key s)
    as [E|[E|[(el & E)|[(-> & _)|(l & e1 & e2 & g & Ha & Hlen & Hd & El & Hl & E)]]]].
  - by rewrite !E.
  - rewrite E. by rewrite (Hidle _ (reset_Idle s)).
  - rewrite E. by rewrite (Hidle _ (reset_Idle _)).
  - done.
  - assert (Hdig : Js.digit19 key = None).
    { destruct Hd as [Hp|Hd]; [|done]. by destruct H. }
    rewrite E.
    set (r1 := markMnemonics true (Some (Js.toLowerCase key)) None
                 (set_pendingGroup (Some l) s)).
    destruct (mark_show_fields (Some (Js.toLowerCase key))
                (set_pendingGroup (Some l) s))
      as (Fa & Fp & Fe & Fm & Fh & _).
    fold r1 in Fa, Fp, Fe, Fm, Fh.
    cbn [isAltActive pendingGroup effects accessMap heap set_pendingGroup]
      in Fa, Fp, Fe, Fm, Fh.
    assert (Ha1 : isAltActive r1 = true) by congruence.
    rewrite (onKeydown_letter r1 key Ha1 Hlen (or_intror Hdig)).
    rewrite Fm, El, Fh, (deref_lookup _ _ _ Hl). cbn [fst].
    destruct (mark_show_fields (Some (Js.toLowerCase key))
                (set_pendingGroup (Some l) r1)) as (-> & _ & -> & _).
    cbn [isAltActive effects set_pendingGroup].
    split; [done|]. split; [|split; [done|]].
    + rewrite activeGroup_mark, Fh. unfold r1. by rewrite activeGroup_mark.
    + rewrite visibleHints_mark. cbn [heap accessMap set_pendingGroup].
      rewrite Fm, Fh. unfold r1. by rewrite visibleHints_mark.
Qed.

Lemma keydown_twice_witness :
  let r1 := (onKeydown "o" Sample.disambiguating).1 in
  Js.digit19 "o" = None /\
  visibleHints (onKeydown "o" r1).1 = visibleHints r1.
Proof.
  split; [reflexivity|].
  apply (keydown_twice Sample.disambiguating "o" (or_introl eq_refl)).
Defined.

(** ** What no event changes *)

Lemma step_heap s e l g :
  heap s !! l = Some g -> heap (step s e) !! l = Some g.
Proof.
  intros H. destruct e as [key|key|doc|i]; cbn [step].
  - by destruct (onKeydown_frame key s) as (_ & -> & _).
  - unfold onKeyup. destruct (String.eqb key "Alt"); [|done].
    by destruct (reset_index s) as (_ & -> & _).
  - unfold onMutation. destruct (observer _); [|done].
    by apply scanDocument_heap.
  - unfold onAnimationEnd. by repeat case_match.
Qed.

(** X18. An array of elements is never changed once a scan has built it:
    whatever events follow, the array at a location holds the same elements
    in the same order.  Later scans allocate new arrays. *)
Theorem arrays_never_change (s : State) (evs : list Event) (l : loc)
    (g : list HTMLElement) :
  heap s !! l = Some g -> heap (run s evs) !! l = Some g.
Proof.
  revert s. induction evs as [|e evs IH]; intros s H; [done|].
  cbn [run fold_left]. apply IH. by apply step_heap.
Qed.

Lemma arrays_never_change_witness :
  heap Sample.disambiguating !! 0 = Some [Sample.open1; Sample.open2] /\
  heap (run Sample.disambiguating
          [Mutation Sample.pageThree; KeyDown "o"; KeyDown "3"]) !! 0
  = Some [Sample.open1; Sample.open2].
Proof.
  split; [reflexivity|].
  apply (arrays_never_change Sample.disambiguating
           [Mutation Sample.pageThree; KeyDown "o"; KeyDown "3"] 0
           [Sample.open1; Sample.open2] eq_refl).
Defined.

Lemma mark_style show k c s st :
  mnemoStyle s = Some st -> mnemoStyle (markMnemonics show k c s) = Some st.
Proof.
  intros H. unfold markMnemonics, ensureMnemoStyles. rewrite H.
  destruct show; cbn; exact H.
Qed.

Lemma reset_style s st :
  mnemoStyle s = Some st -> mnemoStyle (resetMnemonics s) = Some st.
Proof. intros H. unfold resetMnemonics. by apply mark_style. Qed.

Lemma step_style s e st :
  mnemoStyle s = Some st -> mnemoStyle (step s e) = Some st.
Proof.
  intros H. destruct e as [key|key|doc|i]; cbn [step].
  - destruct (onKeydown_cases key s)
      as [->|[->|[(el & ->)|[(_ & _ & ->)|(l & e1 & e2 & g & _ & _ & _ & _ & _ & ->)]]]];
      [done | by apply reset_style | by apply reset_style
      | by apply mark_style | by apply mark_style].
  - unfold onKeyup. destruct (String.eqb key "Alt"); [|done].
    by apply reset_style.
  - unfold onMutation. destruct (observer _); [|done].
    by rewrite scanDocument_fields.
  - unfold onAnimationEnd. by repeat case_match.
Qed.

(** X19. The style block is injected once: when it is present, no event
    replaces or removes it, so its declarations stay those of the first
    injection. *)
Theorem style_block_injected_once (s : State) (evs : list Event) (st : MnemoStyle) :
  mnemoStyle s = Some st -> mnemoStyle (run s evs) = Some st.
Proof.
  revert s. induction evs as [|e evs IH]; intros s H; [done|].
  cbn [run fold_left]. apply IH. by apply step_style.
Qed.

Lemma style_block_injected_once_witness :
  mnemoStyle Sample.disambiguating = Some (mkStyle "" "" "0.15s") /\
  mnemoStyle (run Sample.disambiguating [KeyDown "Escape"; KeyDown "Alt"])
  = Some (mkStyle "" "" "0.15s").
Proof.
  split; [reflexivity|].
  apply (style_block_injected_once Sample.disambiguating
           [KeyDown "Escape"; KeyDown "Alt"] (mkStyle "" "" "0.15s") eq_refl).
Defined.

(** ** The pending group *)

Lemma step_pendingGroupValid s e :
  pendingGroupValid s -> pendingGroupValid (step s e).
Proof.
  intros H. destruct e as [key|key|doc|i]; cbn [step].
  - destruct (onKeydown_cases key s)
      as [->|[->|[(el & ->)|[(_ & _ & ->)|(l & e1 & e2 & g & _ & _ & _ & _ & Hl & ->)]]]].
    + done.
    + intros l Hp. by rewrite (proj2 (reset_Idle s)) in Hp.
    + intros l Hp. by rewrite (proj2 (reset_Idle _)) in Hp.
    + intros l.
      destruct (mark_show_fields None (set_isAltActive true s))
        as (_ & -> & _ & _ & -> & _).
      apply H.
    + intros l'.
      destruct (mark_show_fields (Some (Js.toLowerCase key))
                  (set_pendingGroup (Some l) s)) as (_ & -> & _ & _ & -> & _).
      cbn [pendingGroup heap set_pendingGroup]. intros [= <-].
      exists (e1 :: e2 :: g). split; [done | cbn; lia].
  - unfold onKeyup. destruct (String.eqb key "Alt"); [|done].
    intros l Hp. by rewrite (proj2 (reset_Idle s)) in Hp.
  - intros l Hp. destruct (onMutation_flags doc s) as (_ & Ep & _).
    rewrite Ep in Hp. destruct (H l Hp) as (g & Hg & H2).
    exists g. split; [|done].
    pose proof (step_heap s (Mutation doc) l g Hg) as Hs. by cbn [step] in Hs.
  - unfold onAnimationEnd. by repeat case_match.
Qed.

Lemma Reachable_pendingGroupValid s : Reachable s -> pendingGroupValid s.
Proof.
  induction 1 as [cfg doc|s e _ IH].
  - intros l. unfold initMnemonics, setupObserver.
    cbn [pendingGroup set_observer]. by rewrite scanDocument_fields.
  - by apply step_pendingGroupValid.
Qed.

(** X20. A pending group is always usable: in every reachable state where
    [pendingGroup] is set, the session is Disambiguating on an existing array
    of at least two elements, so the digits 1 and 2 always find an element. *)
Theorem pending_group_has_two (s : State) (l : loc) :
  Reachable s -> pendingGroup s = Some l ->
  exists g, Disambiguating s g /\ 2 <= length g /\
            is_Some (g !! 0) /\ is_Some (g !! 1).
Proof.
  intros Hr Hp.
  destruct (Reachable_pendingGroupValid s Hr l Hp) as (g & Hg & H2).
  exists g. split; [split|].
  - apply (Reachable_groupNeedsModifier s Hr). by rewrite Hp.
  - unfold activeGroup. rewrite Hp. by cbn.
  - split; [done|]. split; apply lookup_lt_is_Some; lia.
Qed.

Lemma pending_group_has_two_witness :
  Reachable Sample.disambiguating /\
  pendingGroup Sample.disambiguating = Some 0 /\
  exists g, Disambiguating Sample.disambiguating g /\ 2 <= length g /\
            is_Some (g !! 0) /\ is_Some (g !! 1).
Proof.
  split; [exact sample_reachable|]. split; [reflexivity|].
  apply (pending_group_has_two Sample.disambiguating 0 sample_reachable eq_refl).
Defined.

(** ** From the page to the trigger *)

Lemma lookupGroup_rescan s doc k :
  observer s = true -> k <> "" ->
  lookupGroup (onMutation doc s) k
  = match List.filter (filedUnder (attr (config s)) k)
            (querySelectorAll (attr (config s)) doc) with
    | [] => None
    | g => Some g
    end.
Proof.
  intros Ho Hk. rewrite (onMutation_observing doc s Ho).
  rewrite lookupGroup_indexOf, scanDocument_index.
  cbn [config document set_document]. unfold buildIndex.
  rewrite (assocGet_fold_indexStep _ k _ [] Hk).
  cbn [assocGet]. unfold extendGroup. by destruct (List.filter _ _).
Qed.

Lemma init_fields cfg doc :
  let s := initMnemonics cfg doc in
  Idle s /\ observer s = true /\ effects s = [] /\ labels s = [] /\
  attr (config s) = orDefault (u_attr cfg) "data-accesskey".
Proof.
  unfold initMnemonics, setupObserver, Idle. cbn zeta.
  cbn [isAltActive pendingGroup observer effects labels config set_observer].
  by rewrite scanDocument_fields.
Qed.

(** The session armed over the tree [doc]: initialisation, the modifier, and
    the observer's run that follows the rendering of the hints. *)
Lemma armed_over_page cfg doc k :
  k <> "" ->
  let a := orDefault (u_attr cfg) "data-accesskey" in
  let s := run (initMnemonics cfg doc) [KeyDown "Alt"; Mutation doc] in
  Reachable s /\ Armed s /\ effects s = [] /\
  lookupGroup s k
  = match List.filter (filedUnder a k) (querySelectorAll a doc) with
    | [] => None
    | g => Some g
    end.
Proof.
  intros Hk a s.
  destruct (init_fields cfg doc) as ([Ia Ip] & Io & Ie & _ & Iattr).
  set (s0 := initMnemonics cfg doc) in *.
  assert (Es : s = onMutation doc
                     (markMnemonics true None None (set_isAltActive true s0))).
  { subst s. cbn [run fold_left step]. by rewrite (onKeydown_Alt_idle s0 Ia). }
  set (s1 := markMnemonics true None None (set_isAltActive true s0)) in *.
  destruct (mark_show_fields None (set_isAltActive true s0))
    as (Fa & Fp & Fe & _ & _ & Fc & Fo & _).
  fold s1 in Fa, Fp, Fe, Fc, Fo.
  cbn [isAltActive pendingGroup effects config observer set_isAltActive]
    in Fa, Fp, Fe, Fc, Fo.
  destruct (onMutation_flags doc s1) as (Ma & Mp & Me & _).
  split; [subst s; apply Reachable_run, reach_init|].
  rewrite Es. split; [split; congruence|]. split; [congruence|].
  rewrite (lookupGroup_rescan s1 doc k) by congruence.
  subst a. by rewrite Fc, Iattr.
Qed.

(** X21. From the page to the trigger, one element.  On a page where exactly
    one tagged element has the lower-cased form of a one-character key as its
    lower-cased attribute value, holding the modifier and pressing the key
    focuses that element and sends it an Enter press and release, and the
    session ends Idle with no visible hint. *)
Theorem press_letter_triggers_element
    (cfg : MnemonicConfig) (doc : DomNode) (key : string) (el : HTMLElement) :
  String.length key = 1 ->
  let a := orDefault (u_attr cfg) "data-accesskey" in
  List.filter (filedUnder a (Js.toLowerCase key)) (querySelectorAll a doc) = [el] ->
  let s := run (initMnemonics cfg doc) [KeyDown "Alt"; Mutation doc; KeyDown key] in
  effects s = triggerEffects el /\ Idle s /\ visibleHints s = [].
Proof.
  intros Hlen a Hf s.
  assert (Hk : Js.toLowerCase key <> "").
  { intros E. apply (proj1 (toLowerCase_empty key)) in E.
    rewrite E in Hlen. discriminate Hlen. }
  destruct (armed_over_page cfg doc _ Hk) as (_ & [Aa Ap] & Ae & Hg).
  fold a in Hg. rewrite Hf in Hg.
  subst s.
  change (run (initMnemonics cfg doc) [KeyDown "Alt"; Mutation doc; KeyDown key])
    with (onKeydown key
            (run (initMnemonics cfg doc) [KeyDown "Alt"; Mutation doc])).1.
  rewrite (letter_single _ key el Aa Hlen (or_introl Ap) Hg). cbn [fst].
  rewrite reset_effects. cbn [effects log]. rewrite Ae.
  split; [done | split; [apply reset_Idle | apply visibleHints_reset]].
Qed.

Lemma press_letter_triggers_element_witness :
  String.length "S" = 1 /\
  effects (run (initMnemonics Sample.defaults Sample.pageThree)
             [KeyDown "Alt"; Mutation Sample.pageThree; KeyDown "S"])
  = triggerEffects Sample.save.
Proof.
  split; [reflexivity|].
  apply (press_letter_triggers_element Sample.defaults Sample.pageThree "S"
           Sample.save eq_refl eq_refl).
Defined.

(** X22. From the page to the trigger, several elements.  On a page where
    two or more tagged elements share the lower-cased form of a one-character
    key, holding the modifier, pressing the key and then the digit [d]
    triggers the [d]-th of them in document order and nothing else, or
    nothing when there are fewer than [d]; the observer's runs in between do
    not disturb this.  The session ends Idle with no visible hint. *)
Theorem press_letter_then_digit
    (cfg : MnemonicConfig) (doc : DomNode) (key : string)
    (g : list HTMLElement) (d : nat) :
  String.length key = 1 -> 1 <= d <= 9 ->
  let a := orDefault (u_attr cfg) "data-accesskey" in
  List.filter (filedUnder a (Js.toLowerCase key)) (querySelectorAll a doc) = g ->
  2 <= length g ->
  let s := run (initMnemonics cfg doc)
             [KeyDown "Alt"; Mutation doc; KeyDown key; Mutation doc;
              KeyDown (digitKey d)] in
  effects s = match g !! (d - 1) with
              | Some el => triggerEffects el
              | None => []
              end /\
  Idle s /\ visibleHints s = [].
Proof.
  intros Hlen Hd a Hf H2 s.
  assert (Hk : Js.toLowerCase key <> "").
  { intros E. apply (proj1 (toLowerCase_empty key)) in E.
    rewrite E in Hlen. discriminate Hlen. }
  destruct (armed_over_page cfg doc _ Hk) as (Hr & [Aa Ap] & Ae & Hg).
  fold a in Hg. rewrite Hf in Hg.
  assert (Hg' : lookupGroup
                  (run (initMnemonics cfg doc) [KeyDown "Alt"; Mutation doc])
                  (Js.toLowerCase key) = Some g).
  { rewrite Hg. destruct g; [cbn in H2; lia | done]. }
  subst s.
  change (run (initMnemonics cfg doc)
            [KeyDown "Alt"; Mutation doc; KeyDown key; Mutation doc;
             KeyDown (digitKey d)])
    with (onKeydown (digitKey d)
            (onMutation doc
               (onKeydown key
                  (run (initMnemonics cfg doc)
                     [KeyDown "Alt"; Mutation doc])).1)).1.
  set (s2 := run (initMnemonics cfg doc) [KeyDown "Alt"; Mutation doc]) in *.
  destruct (letter_group_hints s2 key g (Reachable_keys s2 Hr) Aa Hlen
              (or_introl Ap) Hg' H2) as ([_ Hact] & He & _).
  set (s3 := (onKeydown key s2).1) in *.
  pose proof (onMutation_group doc s3 g Hact) as Hact'.
  destruct (onMutation_flags doc s3) as (_ & _ & Me & _).
  destruct (digit_branch_effects (onMutation doc s3) g (digitKey d) d Hact'
              (digit19_digitKey d Hd)) as (E & HI & HV).
  split; [|done]. rewrite E, Me, He, Ae. done.
Qed.

Lemma press_letter_then_digit_witness :
  String.length "o" = 1 /\ 1 <= 3 <= 9 /\
  effects (run (initMnemonics Sample.defaults Sample.pageThree)
             [KeyDown "Alt"; Mutation Sample.pageThree; KeyDown "o";
              Mutation Sample.pageThree; KeyDown (digitKey 3)])
  = triggerEffects Sample.open3.
Proof.
  split; [reflexivity|]. split; [lia|].
  apply (press_letter_then_digit Sample.defaults Sample.pageThree "o"
           [Sample.open1; Sample.open2; Sample.open3] 3);
    [reflexivity | lia | reflexivity | cbn; lia].
Defined.
